(** * Voice sandwich pipeline: the dialog stage, the turn buffer and the
      speech-to-text handle

    Shallow embedding of [src/components/python/src/main.py]
    ([_stt_stream], [_agent_stream], [_tts_stream.process_upstream]) and of
    [src/components/python/src/cartesia_stt.py] ([CartesiaSTT]).

    Asynchronous generators are embedded as functions from the finite list
    of items they have consumed to the list of actions they performed, in
    program order: what they pulled, what they yielded, which collaborator
    they called.  Collaborators (the agent, the websocket of the recogniser)
    are oracles: their answers are parameters of the run. *)

From Stdlib Require Import List String Ascii Bool Arith Lia FinFun.
Import ListNotations.
Open Scope string_scope.
Open Scope list_scope.

(** ** Python idioms *)

Module Py.

(** [d.get(k, default)] and [getattr(o, k, default)] on an optional entry. *)
Definition from_option {X : Type} (d : X) (o : option X) : X :=
  match o with Some x => x | None => d end.

(** The left operand of [x or y] on an optional string: [None] and the
    empty string are falsy, so the right operand is taken. *)
Definition supplied (o : option string) : option string :=
  match o with
  | Some s => if s =? "" then None else Some s
  | None => None
  end.

Definition is_some {X : Type} (o : option X) : bool :=
  match o with Some _ => true | None => false end.

(** How a call ends. *)
Inductive Outcome : Type :=
| Returned
| Raised (detail : string).

End Py.
Export Py.

(** ** Events *)

Module Events.

(** A tool-call argument dictionary, keys and rendered values. *)
Definition Args := list (string * string).

(** Modelled from the spec: [events.py] (the event classes and their
    [create] constructors) is not among the sources.  The variants and
    their fields are those of section 3 of the specification, under the
    class names [main.py] and [cartesia_stt.py] import. *)
Inductive VoiceAgentEvent : Type :=
| STTChunkEvent (transcript : string)
| STTOutputEvent (transcript : string)
| AgentChunkEvent (text : string)
| ToolCallEvent (id name : string) (args : Args)
| ToolResultEvent (tool_call_id name result : string)
| AgentEndEvent
| AudioChunkEvent (audio : list nat).

(** The [type] attribute the stages dispatch on.  [main.py] tests for
    ["stt_output"], ["agent_chunk"] and ["agent_end"]; the other tags only
    have to differ from these three. *)
Definition type_ (e : VoiceAgentEvent) : string :=
  match e with
  | STTChunkEvent _ => "stt_chunk"
  | STTOutputEvent _ => "stt_output"
  | AgentChunkEvent _ => "agent_chunk"
  | ToolCallEvent _ _ _ => "tool_call"
  | ToolResultEvent _ _ _ => "tool_result"
  | AgentEndEvent => "agent_end"
  | AudioChunkEvent _ => "audio_chunk"
  end.

(** [event.transcript] and [event.text]; read only after the tag test. *)
Definition transcript (e : VoiceAgentEvent) : string :=
  match e with
  | STTChunkEvent t | STTOutputEvent t => t
  | _ => ""
  end.

Definition text (e : VoiceAgentEvent) : string :=
  match e with
  | AgentChunkEvent t => t
  | _ => ""
  end.

Definition is_agent_end (e : VoiceAgentEvent) : bool :=
  type_ e =? "agent_end".
Definition is_stt_output (e : VoiceAgentEvent) : bool :=
  type_ e =? "stt_output".
Definition is_agent_chunk (e : VoiceAgentEvent) : bool :=
  type_ e =? "agent_chunk".

(** The events a turn of the agent produces before its end marker. *)
Definition turn_body_event (e : VoiceAgentEvent) : Prop :=
  match e with
  | AgentChunkEvent _ | ToolCallEvent _ _ _ | ToolResultEvent _ _ _ => True
  | _ => False
  end.

Definition is_tool_call (e : VoiceAgentEvent) : bool := type_ e =? "tool_call".

(** The texts of the [AgentChunkEvent]s of a sequence, in order. *)
Definition chunk_texts (evs : list VoiceAgentEvent) : list string :=
  map text (filter is_agent_chunk evs).

(** The transcripts of the finalised utterances of a sequence, in order. *)
Definition finals (evs : list VoiceAgentEvent) : list string :=
  map transcript (filter is_stt_output evs).

(** The ids of the [ToolCallEvent]s of a sequence, in order. *)
Fixpoint tool_call_ids (evs : list VoiceAgentEvent) : list string :=
  match evs with
  | [] => []
  | ToolCallEvent id _ _ :: evs' => id :: tool_call_ids evs'
  | _ :: evs' => tool_call_ids evs'
  end.

(** No orphaned result: every [ToolResultEvent] carries the id of a
    [ToolCallEvent] that stands before it ([seen] holds the ids so far). *)
Fixpoint results_matched (seen : list string) (evs : list VoiceAgentEvent)
  : bool :=
  match evs with
  | [] => true
  | ToolCallEvent id _ _ :: evs' => results_matched (id :: seen) evs'
  | ToolResultEvent id _ _ :: evs' =>
      existsb (String.eqb id) seen && results_matched seen evs'
  | _ :: evs' => results_matched seen evs'
  end.

(** The two kinds of events the recogniser's handle yields. *)
Definition is_stt_event (e : VoiceAgentEvent) : bool :=
  (type_ e =? "stt_chunk") || (type_ e =? "stt_output").

(** The two kinds of events the turn buffer reacts to. *)
Definition is_buffer_event (e : VoiceAgentEvent) : bool :=
  (type_ e =? "agent_chunk") || (type_ e =? "agent_end").

(** Name and arguments of the [ToolCallEvent]s of a sequence, in order. *)
Fixpoint tool_call_views (evs : list VoiceAgentEvent)
  : list (string * Args) :=
  match evs with
  | [] => []
  | ToolCallEvent _ nm args :: evs' => (nm, args) :: tool_call_views evs'
  | _ :: evs' => tool_call_views evs'
  end.

(** Id and result of the [ToolResultEvent]s of a sequence, in order. *)
Fixpoint tool_result_views (evs : list VoiceAgentEvent)
  : list (string * string) :=
  match evs with
  | [] => []
  | ToolResultEvent id _ res :: evs' => (id, res) :: tool_result_views evs'
  | _ :: evs' => tool_result_views evs'
  end.

End Events.
Export Events.

(** ** The dialog stage: [_agent_stream] *)

Module Dialog.

(** One entry of [message.tool_calls], a dictionary read with [get]. *)
Record ToolCall : Type := {
  tc_id : option string;
  tc_name : option string;
  tc_args : option Args
}.

(** What [agent.astream(..., stream_mode="messages")] hands out: the
    stage tells [AIMessage] and [ToolMessage] apart with [isinstance] and
    ignores everything else.  An optional field of a [ToolMessage] is
    [None] where the object has no such attribute, which is when the
    default of [getattr] applies; a name that is there and holds Python's
    [None] is outside this type. *)
Inductive Message : Type :=
| AIMessage (text : string) (tool_calls : list ToolCall)
| ToolMessage (tool_call_id name : option string) (content : string)
| OtherMessage.

(** One invocation of the agent: the messages it streams, whether the
    stream then raises (with the error's detail) instead of completing,
    and the agent's state afterwards (the checkpointer's memory). *)
Record AgentRun (A : Type) : Type := {
  streamed : list Message;
  failure : option string;
  agent_after : A
}.
Arguments streamed {A} _.
Arguments failure {A} _.
Arguments agent_after {A} _.

(** What the generator does, in program order. *)
Inductive Action : Type :=
| Pull (e : VoiceAgentEvent)
| Yield (e : VoiceAgentEvent)
| Invoke (thread_id transcript : string)
| StreamDone
| Raise (detail : string).

Fixpoint outputs (tr : list Action) : list VoiceAgentEvent :=
  match tr with
  | [] => []
  | Yield e :: tr' => e :: outputs tr'
  | _ :: tr' => outputs tr'
  end.

Fixpoint invoked (tr : list Action) : list string :=
  match tr with
  | [] => []
  | Invoke _ t :: tr' => t :: invoked tr'
  | _ :: tr' => invoked tr'
  end.

Definition is_raise (a : Action) : bool :=
  match a with Raise _ => true | _ => false end.

Definition raised (tr : list Action) : bool := existsb is_raise tr.

Section Stage.

(** [str(uuid4())]: the [k]-th draw of the session. *)
Variable uuid4 : nat -> string.

(** The agent collaborator, by state, thread id and transcript. *)
Variable A : Type.
Variable astream : A -> string -> string -> AgentRun A.

(** Lines 129-134: one [ToolCallEvent] per entry, [n] draws so far. *)
Fixpoint tool_call_events (tcs : list ToolCall) (n : nat)
  : list VoiceAgentEvent * nat :=
  match tcs with
  | [] => ([], n)
  | tc :: rest =>
      let '(id, n1) :=
        match supplied (tc_id tc) with
        | Some i => (i, n)
        | None => (uuid4 n, S n)
        end in
      let '(evs, n2) := tool_call_events rest n1 in
      (ToolCallEvent id (from_option "unknown" (tc_name tc))
                     (from_option [] (tc_args tc)) :: evs, n2)
  end.

(** Lines 126-141: the events of one streamed message. *)
Definition message_events (m : Message) (n : nat)
  : list VoiceAgentEvent * nat :=
  match m with
  | AIMessage txt tcs =>
      let '(evs, n') := tool_call_events tcs n in
      (AgentChunkEvent txt :: evs, n')
  | ToolMessage tcid nm content =>
      ([ToolResultEvent (from_option "" tcid) (from_option "unknown" nm)
                        (if content =? "" then "" else content)], n)
  | OtherMessage => ([], n)
  end.

(** Line 125: the loop over the agent's stream. *)
Fixpoint stream_events (ms : list Message) (n : nat)
  : list VoiceAgentEvent * nat :=
  match ms with
  | [] => ([], n)
  | m :: rest =>
      let '(evs, n1) := message_events m n in
      let '(evs', n2) := stream_events rest n1 in
      (evs ++ evs', n2)
  end.

(** Lines 115-143.  An error raised by the agent's stream is caught
    nowhere: it leaves the generator, which pulls and yields nothing
    more. *)
Fixpoint agent_loop (thread_id : string) (evs : list VoiceAgentEvent)
         (a : A) (n : nat) : list Action :=
  match evs with
  | [] => []
  | e :: rest =>
      Pull e :: Yield e ::
      if type_ e =? "stt_output" then
        let r := astream a thread_id (transcript e) in
        let '(out, n') := stream_events (streamed r) n in
        Invoke thread_id (transcript e) :: map Yield out ++
        match failure r with
        | None =>
            StreamDone :: Yield AgentEndEvent ::
            agent_loop thread_id rest (agent_after r) n'
        | Some d => [Raise d]
        end
      else agent_loop thread_id rest a n
  end.

(** Line 113 draws the thread id first. *)
Definition _agent_stream (evs : list VoiceAgentEvent) (a : A)
  : list Action :=
  agent_loop (uuid4 0) evs a 1.

End Stage.

Arguments agent_loop uuid4 {A} astream thread_id evs a n.
Arguments _agent_stream uuid4 {A} astream evs a.

(** The phases of the generator between two pulls of its input. *)
Inductive Phase : Type :=
| Idle        (* between turns: the next input event may be pulled *)
| Streaming   (* the agent was invoked and its stream is being read *)
| Completed   (* the stream has ended, the end marker is still due *)
| Dead.       (* an error has left the generator *)

(** A trace keeps one turn in flight when the input is pulled and the
    agent invoked in phase [Idle] only, the end marker is yielded right
    after the stream is done, and nothing follows an error. *)
Fixpoint one_in_flight (p : Phase) (tr : list Action) : bool :=
  match tr with
  | [] => true
  | Pull _ :: tr' =>
      match p with Idle => one_in_flight Idle tr' | _ => false end
  | Invoke _ _ :: tr' =>
      match p with Idle => one_in_flight Streaming tr' | _ => false end
  | StreamDone :: tr' =>
      match p with Streaming => one_in_flight Completed tr' | _ => false end
  | Raise _ :: tr' =>
      match p with Streaming => one_in_flight Dead tr' | _ => false end
  | Yield e :: tr' =>
      match p with
      | Idle => one_in_flight Idle tr'
      | Streaming =>
          if is_agent_end e then false else one_in_flight Streaming tr'
      | Completed => if is_agent_end e then one_in_flight Idle tr' else false
      | Dead => false
      end
  end.

(** The shape of an output in which every turn ran to its end: an event
    that is no final transcript is passed on; a final transcript is passed
    on, followed by the events of the turn's body and then by one end
    marker. *)
Inductive completed_turns
  : list VoiceAgentEvent -> list VoiceAgentEvent -> Prop :=
| ct_nil : completed_turns [] []
| ct_pass e ins outs :
    is_stt_output e = false ->
    completed_turns ins outs ->
    completed_turns (e :: ins) (e :: outs)
| ct_turn t body ins outs :
    Forall turn_body_event body ->
    completed_turns ins outs ->
    completed_turns (STTOutputEvent t :: ins)
                    (STTOutputEvent t :: body ++ AgentEndEvent :: outs).

(** The tool calls of a stream, and the ids the agent supplied on them. *)
Definition message_tool_calls (m : Message) : list ToolCall :=
  match m with
  | AIMessage _ tcs => tcs
  | _ => []
  end.

Definition all_tool_calls (ms : list Message) : list ToolCall :=
  flat_map message_tool_calls ms.


Definition lacks_id (tc : ToolCall) : bool :=
  negb (is_some (supplied (tc_id tc))).

(** The ids given to the calls that came without one. *)
Fixpoint fresh_ids (tcs : list ToolCall) (ids : list string) : list string :=
  match tcs, ids with
  | tc :: tcs', id :: ids' =>
      if lacks_id tc then id :: fresh_ids tcs' ids' else fresh_ids tcs' ids'
  | _, _ => []
  end.


(** The texts of the [AIMessage]s of a stream, in order. *)
Fixpoint ai_texts (ms : list Message) : list string :=
  match ms with
  | [] => []
  | AIMessage txt _ :: ms' => txt :: ai_texts ms'
  | _ :: ms' => ai_texts ms'
  end.

(** Two agents that differ at most in the detail of the errors they raise. *)
Definition same_but_detail {A : Type}
  (f g : A -> string -> string -> AgentRun A) : Prop :=
  forall a tid t,
    streamed (f a tid t) = streamed (g a tid t) /\
    agent_after (f a tid t) = agent_after (g a tid t) /\
    is_some (failure (f a tid t)) = is_some (failure (g a tid t)).

(** The input events the generator took, in order. *)
Fixpoint pulled (tr : list Action) : list VoiceAgentEvent :=
  match tr with
  | [] => []
  | Pull e :: tr' => e :: pulled tr'
  | _ :: tr' => pulled tr'
  end.

(** The thread ids the agent was invoked under, in order. *)
Fixpoint thread_ids (tr : list Action) : list string :=
  match tr with
  | [] => []
  | Invoke tid _ :: tr' => tid :: thread_ids tr'
  | _ :: tr' => thread_ids tr'
  end.

(** The fields of the [ToolMessage]s of a stream, in order. *)
Fixpoint tool_messages (ms : list Message)
  : list (option string * option string * string) :=
  match ms with
  | [] => []
  | ToolMessage tcid nm content :: ms' =>
      (tcid, nm, content) :: tool_messages ms'
  | _ :: ms' => tool_messages ms'
  end.

(** The streams of the turns that ran to their end, in order: what the
    agent, as the stage drives it from state [a], streams for each final
    transcript of [evs] up to the first stream that raises. *)
Fixpoint completed_streams {A : Type}
  (astream : A -> string -> string -> AgentRun A) (thread_id : string)
  (evs : list VoiceAgentEvent) (a : A) : list (list Message) :=
  match evs with
  | [] => []
  | e :: rest =>
      if type_ e =? "stt_output" then
        let r := astream a thread_id (transcript e) in
        match failure r with
        | None =>
            streamed r
            :: completed_streams astream thread_id rest (agent_after r)
        | Some _ => []
        end
      else completed_streams astream thread_id rest a
  end.

(** All the messages the agent streams over a session, in order: those of
    the turns that ran to their end and those that came before the error
    of a turn that did not. *)
Fixpoint streamed_in_session {A : Type}
  (astream : A -> string -> string -> AgentRun A) (thread_id : string)
  (evs : list VoiceAgentEvent) (a : A) : list Message :=
  match evs with
  | [] => []
  | e :: rest =>
      if type_ e =? "stt_output" then
        let r := astream a thread_id (transcript e) in
        streamed r ++
        match failure r with
        | None => streamed_in_session astream thread_id rest (agent_after r)
        | Some _ => []
        end
      else streamed_in_session astream thread_id rest a
  end.

(** The agent's state and the number of draws once the stage has worked
    through [evs], all of whose turns ran to their end. *)
Fixpoint state_after {A : Type} (uuid4 : nat -> string)
  (astream : A -> string -> string -> AgentRun A) (thread_id : string)
  (evs : list VoiceAgentEvent) (a : A) (n : nat) : A * nat :=
  match evs with
  | [] => (a, n)
  | e :: rest =>
      if type_ e =? "stt_output" then
        let r := astream a thread_id (transcript e) in
        state_after uuid4 astream thread_id rest (agent_after r)
          (snd (stream_events uuid4 (streamed r) n))
      else state_after uuid4 astream thread_id rest a n
  end.

(** The events the stage yields of its own: every yield but the one of
    line 116, which passes on the event just pulled. *)
Fixpoint emitted (tr : list Action) : list VoiceAgentEvent :=
  match tr with
  | [] => []
  | Pull _ :: Yield _ :: tr' => emitted tr'
  | Yield e :: tr' => e :: emitted tr'
  | _ :: tr' => emitted tr'
  end.

Definition not_agent_end (e : VoiceAgentEvent) : bool :=
  negb (is_agent_end e).

(** The shape of the output of any run, [cut] telling whether it ends in a
    turn that did not run to its end: an event that is no final transcript
    is passed on; a final transcript whose turn ran to its end is passed
    on, followed by the events of the turn's body and then by one end
    marker; a final transcript whose turn was cut is passed on, followed
    by the events of the turn's body, and there the output ends. *)
Inductive turns
  : list VoiceAgentEvent -> list VoiceAgentEvent -> bool -> Prop :=
| turns_nil : turns [] [] false
| turns_pass e ins outs cut :
    is_stt_output e = false ->
    turns ins outs cut ->
    turns (e :: ins) (e :: outs) cut
| turns_done t body ins outs cut :
    Forall turn_body_event body ->
    turns ins outs cut ->
    turns (STTOutputEvent t :: ins)
          (STTOutputEvent t :: body ++ AgentEndEvent :: outs) cut
| turns_cut t body ins :
    Forall turn_body_event body ->
    turns (STTOutputEvent t :: ins) (STTOutputEvent t :: body) true.

End Dialog.

(** ** The turn buffer: [_tts_stream.process_upstream] *)

Module Tts.

(** What [process_upstream] does, in program order: it yields an event or
    calls [tts.send_text]. *)
Inductive Action : Type :=
| Yield (e : VoiceAgentEvent)
| SendText (text : string).

(** Lines 154-159, one round of the loop on the buffer [buffer]. *)
Definition step (buffer : list string) (e : VoiceAgentEvent)
  : list Action * list string :=
  let buffer1 :=
    if type_ e =? "agent_chunk" then buffer ++ [text e] else buffer in
  if type_ e =? "agent_end"
  then ([Yield e; SendText (String.concat "" buffer1)], [])
  else ([Yield e], buffer1).

(** Lines 152-159: the actions, and the buffer left at the end. *)
Fixpoint process_upstream (evs : list VoiceAgentEvent) (buffer : list string)
  : list Action * list string :=
  match evs with
  | [] => ([], buffer)
  | e :: rest =>
      let '(acts, buffer1) := step buffer e in
      let '(acts', buffer2) := process_upstream rest buffer1 in
      (acts ++ acts', buffer2)
  end.

(** The arguments of the [send_text] calls, in order. *)
Fixpoint submitted (acts : list Action) : list string :=
  match acts with
  | [] => []
  | SendText s :: acts' => s :: submitted acts'
  | Yield _ :: acts' => submitted acts'
  end.

(** The events passed on, in order. *)
Fixpoint passed (acts : list Action) : list VoiceAgentEvent :=
  match acts with
  | [] => []
  | Yield e :: acts' => e :: passed acts'
  | SendText _ :: acts' => passed acts'
  end.

(** The chunk texts seen since the last end marker, or since the start. *)
Fixpoint since_last_end (evs : list VoiceAgentEvent) : list string :=
  match evs with
  | [] => []
  | e :: rest =>
      if existsb is_agent_end rest then since_last_end rest
      else chunk_texts (e :: rest)
  end.

(** [send_text] is called only right after an end marker was passed on
    ([prev_end] tells whether the last action was such a yield). *)
Fixpoint send_follows_end (prev_end : bool) (acts : list Action) : bool :=
  match acts with
  | [] => true
  | Yield e :: acts' => send_follows_end (is_agent_end e) acts'
  | SendText _ :: acts' => prev_end && send_follows_end false acts'
  end.




End Tts.

(** ** The recogniser's handle: [CartesiaSTT] *)

Module Stt.

Inductive Socket : Type := socket.
Inductive Client : Type := sdk_client.

(** The fields of the handle that its methods read and write. *)
Record CartesiaSTT : Type := {
  client : option Client;
  ws : option Socket;
  is_connected : bool;
  _close_signal : bool
}.

(** Lines 31-34. *)
Definition init : CartesiaSTT :=
  {| client := None; ws := None; is_connected := false;
     _close_signal := false |}.

Definition set_is_connected (b : bool) (s : CartesiaSTT) : CartesiaSTT :=
  {| client := client s; ws := ws s; is_connected := b;
     _close_signal := _close_signal s |}.

(** The calls that reach the collaborator, whether or not they succeed. *)
Inductive Op : Type :=
| Handshake
| WsSend (data : list nat)
| WsSendDone
| WsClose
| ClientClose.

(** Lines 36-46; [handshake] is what opening the websocket answers. *)
Definition connect (handshake : option string) (s : CartesiaSTT)
  : Outcome * list Op * CartesiaSTT :=
  match handshake with
  | Some e =>
      (Raised e, [Handshake],
       {| client := Some sdk_client; ws := ws s;
          is_connected := is_connected s;
          _close_signal := _close_signal s |})
  | None =>
      (Returned, [Handshake],
       {| client := Some sdk_client; ws := Some socket;
          is_connected := true; _close_signal := _close_signal s |})
  end.

(** Lines 48-55; [send_result] is what [ws.send] answers when it is called:
    [Some e] stands for an [Exception] it raises. *)
Definition send_audio (audio_data : list nat) (send_result : option string)
  (s : CartesiaSTT) : Outcome * list Op * CartesiaSTT :=
  if negb (is_connected s) || negb (is_some (ws s)) then (Returned, [], s)
  else
    match send_result with
    | None => (Returned, [WsSend audio_data], s)
    | Some _ => (Returned, [WsSend audio_data], set_is_connected false s)
    end.

(** Lines 85-101; [done_fails] tells whether sending ["done"] raises, in
    which case [ws.close] is not reached.  What the two closing calls
    answer changes nothing: their errors are passed over. *)
Definition close (done_fails : bool) (s : CartesiaSTT)
  : Outcome * list Op * CartesiaSTT :=
  let ops_ws :=
    match ws s with
    | Some _ => if done_fails then [WsSendDone] else [WsSendDone; WsClose]
    | None => []
    end in
  let ops_client :=
    match client s with
    | Some _ => [ClientClose]
    | None => []
    end in
  (Returned, ops_ws ++ ops_client,
   {| client := None; ws := None; is_connected := false;
      _close_signal := true |}).

(** A result of the recogniser, a dictionary read with [get]. *)
Record Result : Type := {
  r_type : option string;
  r_text : option string;
  r_is_final : option bool
}.

(** What [ws.receive()] answers when the loop asks for the next result. *)
Inductive Item : Type :=
| Next (r : Result)
| Exhausted
| Failed (detail : string).

(** Where the generator [receive_events] stands. *)
Inductive Receiver : Type :=
| NotStarted
| InLoop
| Finished.

(** Lines 62-83, one round of the loop. *)
Definition receive_body (s : CartesiaSTT) (it : Item)
  : list VoiceAgentEvent * Receiver * CartesiaSTT :=
  match it with
  | Next result =>
      if _close_signal s then ([], Finished, s)
      else
        let result_type := from_option "" (r_type result) in
        if result_type =? "transcript" then
          let text := from_option "" (r_text result) in
          let is_final := from_option false (r_is_final result) in
          if is_final then ([STTOutputEvent text], InLoop, s)
          else ([STTChunkEvent text], InLoop, s)
        else if result_type =? "done" then ([], Finished, s)
        else ([], InLoop, s)
  | Exhausted => ([], Finished, s)
  | Failed _ => ([], Finished, set_is_connected false s)
  end.

(** Lines 57-83: the guard runs when the generator is first resumed. *)
Definition receive_next (rcv : Receiver) (s : CartesiaSTT) (it : Item)
  : list VoiceAgentEvent * Receiver * CartesiaSTT :=
  match rcv with
  | NotStarted =>
      if negb (is_connected s) || negb (is_some (ws s))
      then ([], Finished, s)
      else receive_body s it
  | InLoop => receive_body s it
  | Finished => ([], Finished, s)
  end.

(** The handle together with the generator reading from it. *)
Record Machine : Type := {
  handle : CartesiaSTT;
  receiver : Receiver
}.

(** What the two tasks of the stage do to the handle, in the order the
    event loop runs them. *)
Inductive Call : Type :=
| CallSendAudio (audio_data : list nat) (send_result : option string)
| CallReceive (it : Item)
| CallClose (done_fails : bool).

Definition exec (m : Machine) (c : Call)
  : list VoiceAgentEvent * list Op * Machine :=
  match c with
  | CallSendAudio d r =>
      let '(_, ops, s) := send_audio d r (handle m) in
      ([], ops, {| handle := s; receiver := receiver m |})
  | CallReceive it =>
      let '(evs, rcv, s) := receive_next (receiver m) (handle m) it in
      (evs, [], {| handle := s; receiver := rcv |})
  | CallClose d =>
      let '(_, ops, s) := close d (handle m) in
      ([], ops, {| handle := s; receiver := receiver m |})
  end.

Fixpoint run (m : Machine) (cs : list Call)
  : list VoiceAgentEvent * list Op * Machine :=
  match cs with
  | [] => ([], [], m)
  | c :: cs' =>
      let '(evs, ops, m1) := exec m c in
      let '(evs', ops', m2) := run m1 cs' in
      (evs ++ evs', ops ++ ops', m2)
  end.

Definition yielded (r : list VoiceAgentEvent * list Op * Machine)
  : list VoiceAgentEvent := fst (fst r).
Definition ops_of (r : list VoiceAgentEvent * list Op * Machine)
  : list Op := snd (fst r).
Definition machine_of (r : list VoiceAgentEvent * list Op * Machine)
  : Machine := snd r.

(** [receive_events] read to its end on the answers [items], nothing else
    touching the handle meanwhile. *)
Definition receive_events (s : CartesiaSTT) (items : list Item)
  : list VoiceAgentEvent * list Op * Machine :=
  run {| handle := s; receiver := NotStarted |} (map CallReceive items).

Definition is_call_close (c : Call) : bool :=
  match c with CallClose _ => true | _ => false end.

Definition is_call_send (c : Call) : bool :=
  match c with CallSendAudio _ _ => true | _ => false end.

Definition op_eqb (a b : Op) : bool :=
  match a, b with
  | Handshake, Handshake | WsSendDone, WsSendDone
  | WsClose, WsClose | ClientClose, ClientClose => true
  | WsSend x, WsSend y => if list_eq_dec Nat.eq_dec x y then true else false
  | _, _ => false
  end.

Definition count_op (o : Op) (ops : list Op) : nat :=
  List.length (filter (op_eqb o) ops).

(** The operations that wind the collaborator up. *)
Definition teardown (o : Op) : Prop :=
  o = WsSendDone \/ o = WsClose \/ o = ClientClose.

(** *** [_stt_stream], lines 86-107 of [main.py]

    The stage runs two tasks on one handle: [send_audio] forwards the audio
    chunks and closes the handle in its [finally] (line 96); the generator
    reads the events and, in its own [finally], cancels and awaits the
    sending task and closes the handle again (lines 104-107).

    [main.py] builds the handle from [AssemblyAISTT], a class outside the
    sources at hand; the calls are run here on [CartesiaSTT], the handle of
    [cartesia_stt.py] with the same three methods.  How often [close] is
    called does not depend on the class. *)

(** How the sending task comes to its end.  In each of these endings a
    call of [close] that has begun runs to its end; a cancellation that
    lands inside the [close] of line 96 is not among them. *)
Inductive SendEnd : Type :=
| InputEnded            (* the audio iterator is exhausted *)
| InputRaised (detail : string)
                        (* the audio iterator raises, as on a disconnect *)
| CancelledRunning      (* line 105 cancels the task in its loop, at the
                           await of line 93 or of line 94 *)
| CancelledBeforeStart. (* line 105 cancels the task before its first step *)

Record Session : Type := {
  (* sends and receives while both tasks run, as scheduled *)
  concurrent : list Call;
  send_end : SendEnd;
  (* what the generator still receives once the sending task is over *)
  received_after : list Item;
  (* whether sending "done" raises, at line 96 and at line 107 *)
  done_fails_task : bool;
  done_fails_stage : bool
}.

Definition not_close (c : Call) : bool := negb (is_call_close c).

(** The calls on the handle over a session, in order.
    - The task's [finally] runs whenever the task has started.
    - Line 106 awaits the task, so line 107 comes after line 96.
    - A task that ended on an error re-raises it at line 106; only
      [CancelledError] is suppressed there, so line 107 is not reached.
    - A task cancelled before its first step never enters its [try]. *)
Definition _stt_stream (ss : Session) : list Call :=
  let body := filter not_close (concurrent ss) in
  match send_end ss with
  | InputEnded =>
      body ++ [CallClose (done_fails_task ss)]
           ++ map CallReceive (received_after ss)
           ++ [CallClose (done_fails_stage ss)]
  | InputRaised _ =>
      body ++ [CallClose (done_fails_task ss)]
           ++ map CallReceive (received_after ss)
  | CancelledRunning =>
      body ++ [CallClose (done_fails_task ss)]
           ++ [CallClose (done_fails_stage ss)]
  | CancelledBeforeStart =>
      filter (fun c => negb (is_call_send c)) body
           ++ [CallClose (done_fails_stage ss)]
  end.

Definition close_calls (cs : list Call) : nat :=
  List.length (filter is_call_close cs).

(** *** The handle over its whole life *)

(** The methods of the handle: [connect], and the three calls of the
    stage. *)
Inductive Method : Type :=
| MConnect (handshake : option string)
| MCall (c : Call).

Definition exec_method (m : Machine) (x : Method)
  : list VoiceAgentEvent * list Op * Machine :=
  match x with
  | MConnect h =>
      let '(_, ops, s) := connect h (handle m) in
      ([], ops, {| handle := s; receiver := receiver m |})
  | MCall c => exec m c
  end.

Fixpoint run_methods (m : Machine) (xs : list Method)
  : list VoiceAgentEvent * list Op * Machine :=
  match xs with
  | [] => ([], [], m)
  | x :: xs' =>
      let '(evs, ops, m1) := exec_method m x in
      let '(evs', ops', m2) := run_methods m1 xs' in
      (evs ++ evs', ops ++ ops', m2)
  end.

(** The connected flag vouches for the socket, the socket for the client. *)
Definition well_formed (s : CartesiaSTT) : bool :=
  implb (is_connected s) (is_some (ws s))
  && implb (is_some (ws s)) (is_some (client s)).

Definition is_ws_send (o : Op) : bool :=
  match o with WsSend _ => true | _ => false end.


(** An answer of [ws.receive()] after which the loop reads no more. *)
Definition ends_stream (it : Item) : bool :=
  match it with
  | Next r => from_option "" (r_type r) =? "done"
  | Exhausted | Failed _ => true
  end.

(** The event a result stands for, if any. *)
Definition result_events (it : Item) : list VoiceAgentEvent :=
  match it with
  | Next r =>
      if from_option "" (r_type r) =? "transcript" then
        if from_option false (r_is_final r)
        then [STTOutputEvent (from_option "" (r_text r))]
        else [STTChunkEvent (from_option "" (r_text r))]
      else []
  | Exhausted | Failed _ => []
  end.

(** The answers that come before the first one that ends the stream. *)
Fixpoint before_end (items : list Item) : list Item :=
  match items with
  | [] => []
  | it :: items' => if ends_stream it then [] else it :: before_end items'
  end.

End Stt.

(** ** The audio-ingest stage: [_stt_stream], step by step *)

Module Ingest.
Import Stt.

(** How the sending task of line 98 has ended. *)
Inductive TaskResult : Type :=
| TaskReturned                 (* the audio iterator was exhausted *)
| TaskRaised (detail : string) (* the audio iterator raised *)
| TaskCancelled                (* cancelled at line 105 after it had started *)
| TaskNeverRan.                (* cancelled at line 105 before its first step *)

(** Where the sending task stands. *)
Inductive Task : Type :=
| Created                  (* line 98 is done, the first step has not run *)
| Forwarding               (* suspended in the loop of lines 93-94 *)
| Closing (res : TaskResult)
                           (* in the [finally], inside the [close] of
                              line 96, suspended at one of its awaits *)
| Over (res : TaskResult).

(** Where the generator stands. *)
Inductive Gen : Type :=
| Reading                  (* in the loop of lines 101-102 *)
| Ended (o : Outcome).

(** What reaches the stage from outside. *)
Inductive Event : Type :=
| Audio (audio_data : list nat) (send_result : option string)
                           (* the audio iterator hands out a chunk, line 93;
                              [send_result] is what [ws.send] then answers *)
| AudioEnds                (* the audio iterator is exhausted *)
| AudioRaises (detail : string)
                           (* the audio iterator raises, as on a disconnect *)
| CloseProceeds            (* the [close] of line 96 runs to its end *)
| Answer (it : Item)       (* [ws.receive()] answers the reading loop *)
| Stop.                    (* the consumer closes the generator *)

(** What the stage does to the handle. *)
Inductive Entry : Type :=
| Did (c : Call)           (* a call that ran to its end *)
| CloseCut (k : nat).      (* a [close] cancelled at its await number [k] *)

(** What the collaborator answers to the closing calls, and where a
    cancellation lands in a [close] it cuts. *)
Record Answers : Type := {
  task_done_fails : bool;
  stage_done_fails : bool;
  cut_at : nat
}.

Record Run : Type := {
  machine : Machine;
  task : Task;
  gen : Gen;
  log : list Entry;
  sent : list Op;
  yields : list VoiceAgentEvent
}.

Definition with_task (t : Task) (r : Run) : Run :=
  {| machine := machine r; task := t; gen := gen r; log := log r;
     sent := sent r; yields := yields r |}.

Definition end_with (o : Outcome) (r : Run) : Run :=
  {| machine := machine r; task := task r; gen := Ended o; log := log r;
     sent := sent r; yields := yields r |}.

(** A call on the handle that runs to its end. *)
Definition do_call (c : Call) (r : Run) : Run :=
  let '(evs, ops, m) := exec (machine r) c in
  {| machine := m; task := task r; gen := gen r; log := log r ++ [Did c];
     sent := sent r ++ ops; yields := yields r ++ evs |}.

(** Line 86, the first thing [close] does. *)
Definition set_close_signal (s : CartesiaSTT) : CartesiaSTT :=
  {| client := client s; ws := ws s; is_connected := is_connected s;
     _close_signal := true |}.

(** [close] has an await, at which it can be suspended and cancelled, when
    the handle holds a socket or a client. *)
Definition close_suspends (s : CartesiaSTT) : bool :=
  is_some (ws s) || is_some (client s).

(** Line 96: the task's loop is over with [res] and its [finally] calls
    [close], which sets the close signal and, if it has an await, is
    suspended there. *)
Definition task_finally (ans : Answers) (res : TaskResult) (r : Run) : Run :=
  if close_suspends (handle (machine r)) then
    {| machine := {| handle := set_close_signal (handle (machine r));
                     receiver := receiver (machine r) |};
       task := Closing res; gen := gen r; log := log r; sent := sent r;
       yields := yields r |}
  else with_task (Over res) (do_call (CallClose (task_done_fails ans)) r).

(** A cancellation lands in the [close] of line 96 at its await number
    [cut_at]: the collaborator calls up to that await were made, the lines
    98-100 that reset the handle are not reached. *)
Definition cut_close (ans : Answers) (r : Run) : Run :=
  {| machine := machine r; task := Over TaskCancelled; gen := gen r;
     log := log r ++ [CloseCut (cut_at ans)];
     sent := sent r
             ++ firstn (S (cut_at ans))
                  (snd (fst (close (task_done_fails ans)
                               (handle (machine r)))));
     yields := yields r |}.

(** Lines 103-107.  Line 105 cancels the task and line 106 awaits it: a
    task that has not started never enters its [try]; a task suspended in
    its loop runs its [finally], line 96, to the end; a task suspended
    inside [close] has that call cut; a task that is over is left as it
    is, and if it ended on an error line 106 raises it again, which
    [suppress] does not catch, so that line 107 is not reached. *)
Definition stage_finally (ans : Answers) (r : Run) : Run :=
  let close107 := do_call (CallClose (stage_done_fails ans)) in
  match task r with
  | Created => end_with Returned (close107 (with_task (Over TaskNeverRan) r))
  | Forwarding =>
      end_with Returned
        (close107
           (with_task (Over TaskCancelled)
              (do_call (CallClose (task_done_fails ans)) r)))
  | Closing _ => end_with Returned (close107 (cut_close ans r))
  | Over (TaskRaised x) => end_with (Raised x) r
  | Over _ => end_with Returned (close107 r)
  end.

Definition step (ans : Answers) (r : Run) (e : Event) : Run :=
  match gen r with
  | Ended _ => r
  | Reading =>
      match e with
      | Audio d sr =>
          match task r with
          | Forwarding => do_call (CallSendAudio d sr) r
          | _ => r
          end
      | AudioEnds =>
          match task r with
          | Forwarding => task_finally ans TaskReturned r
          | _ => r
          end
      | AudioRaises x =>
          match task r with
          | Forwarding => task_finally ans (TaskRaised x) r
          | _ => r
          end
      | CloseProceeds =>
          match task r with
          | Closing res =>
              with_task (Over res)
                (do_call (CallClose (task_done_fails ans)) r)
          | _ => r
          end
      | Answer it =>
          let r1 := do_call (CallReceive it) r in
          match receiver (machine r1) with
          | Finished => stage_finally ans r1
          | _ => r1
          end
      | Stop => stage_finally ans r
      end
  end.

(** Lines 89-101 up to the first suspension.  The generator creates the
    task and resumes [receive_events], whose guard it runs at once: if the
    guard returns, the loop of line 101 is over before the task has had a
    step; otherwise the generator is suspended in the loop and the task,
    queued at line 98, takes its first step and waits for audio. *)
Definition start (ans : Answers) (s0 : CartesiaSTT) : Run :=
  let r0 (rcv : Receiver) (t : Task) :=
    {| machine := {| handle := s0; receiver := rcv |}; task := t;
       gen := Reading; log := []; sent := []; yields := [] |} in
  if negb (is_connected s0) || negb (is_some (ws s0))
  then stage_finally ans (r0 Finished Created)
  else r0 InLoop Forwarding.

(** The stage on the handle [s0] (line 89 builds it), under the events
    [evs]. *)
Definition _stt_stream (ans : Answers) (s0 : CartesiaSTT)
  (evs : list Event) : Run :=
  fold_left (step ans) evs (start ans s0).









End Ingest.

(** ** The pipeline, lines 168-172 of [main.py] *)

Module Pipeline.


End Pipeline.

(** ** Concrete collaborators and sessions *)

Module Examples.
Import Dialog.

(** A generator of ids that never repeats itself. *)
Fixpoint tally (k : nat) : string :=
  match k with
  | 0 => EmptyString
  | S k' => String "i"%char (tally k')
  end.

Definition demo_uuid4 (k : nat) : string := String.append "uuid-" (tally k).

Definition add_turkey : ToolCall :=
  {| tc_id := Some "t1"; tc_name := Some "add_to_order";
     tc_args := Some [("item", "turkey sandwich"); ("quantity", "1")] |}.

(** The scenario of section 8: a chunk with a tool call, the tool's
    outcome, a closing chunk.  The state counts the turns. *)
Definition order_agent (k : nat) (thread_id transcript : string)
  : AgentRun nat :=
  {| streamed :=
       [AIMessage "Sure, " [add_turkey];
        ToolMessage (Some "t1") (Some "add_to_order")
                    "Added 1 x turkey sandwich to the order.";
        AIMessage "Anything else?" []];
     failure := None;
     agent_after := S k |}.

(** An agent whose stream breaks after its first chunk. *)
Definition failing_agent (k : nat) (thread_id transcript : string)
  : AgentRun nat :=
  {| streamed := [AIMessage "Su" []];
     failure := Some "rate limit exceeded";
     agent_after := S k |}.

Definition failing_agent' (k : nat) (thread_id transcript : string)
  : AgentRun nat :=
  {| streamed := [AIMessage "Su" []];
     failure := Some "connection reset";
     agent_after := S k |}.

(** An agent whose tool call comes without an id, as the stage provides
    for at line 131, and whose tool outcome names the call all the same. *)
Definition idless_agent (k : nat) (thread_id transcript : string)
  : AgentRun nat :=
  {| streamed :=
       [AIMessage "" [{| tc_id := None; tc_name := Some "add_to_order";
                         tc_args := None |}];
        ToolMessage (Some "call_1") (Some "add_to_order") "Added."];
     failure := None;
     agent_after := S k |}.

Definition utterance : list VoiceAgentEvent :=
  [STTChunkEvent "add a"; STTOutputEvent "add a turkey sandwich"].

Definition two_utterances : list VoiceAgentEvent :=
  [STTOutputEvent "add a turkey sandwich"; STTChunkEvent "that";
   STTOutputEvent "that is all"].

(** A connected handle. *)
Definition connected : Stt.CartesiaSTT := snd (Stt.connect None Stt.init).

Definition partial_hello : Stt.Result :=
  {| Stt.r_type := Some "transcript"; Stt.r_text := Some "he";
     Stt.r_is_final := None |}.

Definition final_hello : Stt.Result :=
  {| Stt.r_type := Some "transcript"; Stt.r_text := Some "hello";
     Stt.r_is_final := Some true |}.

(** The audio input ends after two chunks; the recogniser still delivers
    a result before the stage winds up. *)
Definition session_input_ended : Stt.Session :=
  {| Stt.concurrent :=
       [Stt.CallSendAudio [1; 2] None; Stt.CallReceive (Stt.Next partial_hello);
        Stt.CallSendAudio [3; 4] None];
     Stt.send_end := Stt.InputEnded;
     Stt.received_after := [Stt.Next final_hello];
     Stt.done_fails_task := false;
     Stt.done_fails_stage := false |}.

(** An agent whose first stream runs to its end and whose later streams
    break after their first chunk. *)
Definition second_turn_fails (k : nat) (thread_id transcript : string)
  : AgentRun nat :=
  match k with
  | 0 => order_agent k thread_id transcript
  | S _ => failing_agent k thread_id transcript
  end.

(** Modelled from the spec: the handle that line 89 of [main.py] builds,
    whose class [AssemblyAISTT] is not among the sources.  By sections 4.5
    and 6 of the specification a session is live once the handshake with
    the recogniser is done, and the handle then offers to send audio, to
    receive events and to close: it is taken as the handle of
    [cartesia_stt.py] after a successful [connect]. *)
Definition live_handle : Stt.CartesiaSTT := connected.

Definition ordinary : Ingest.Answers :=
  {| Ingest.task_done_fails := false; Ingest.stage_done_fails := false;
     Ingest.cut_at := 0 |}.

End Examples.

(** * Properties *)

(** ** The dialog stage *)

Module DialogFacts.
Import Dialog.

Section Stage.

Variable uuid4 : nat -> string.
Variable A : Type.
Variable astream : A -> string -> string -> AgentRun A.

Lemma outputs_yields (l : list VoiceAgentEvent) (tr : list Action) :
  outputs (map Yield l ++ tr) = l ++ outputs tr.
Proof. induction l as [|e l IH]; cbn; [reflexivity | now rewrite IH]. Qed.

Lemma invoked_yields (l : list VoiceAgentEvent) (tr : list Action) :
  invoked (map Yield l ++ tr) = invoked tr.
Proof. induction l as [|e l IH]; cbn; [reflexivity | exact IH]. Qed.

Lemma raised_yields (l : list VoiceAgentEvent) (tr : list Action) :
  raised (map Yield l ++ tr) = raised tr.
Proof.
  unfold raised. rewrite existsb_app.
  replace (existsb is_raise (map Yield l)) with false; [reflexivity|].
  induction l as [|e l IH]; cbn; [reflexivity | exact IH].
Qed.

Lemma tool_call_events_body (tcs : list ToolCall) (n : nat) :
  Forall turn_body_event (fst (tool_call_events uuid4 tcs n)).
Proof.
  revert n; induction tcs as [|tc tcs IH]; intros n; cbn; [constructor|].
  destruct (supplied (tc_id tc)) as [i|].
  - specialize (IH n). destruct (tool_call_events uuid4 tcs n); cbn in *.
    constructor; [exact I | exact IH].
  - specialize (IH (S n)).
    destruct (tool_call_events uuid4 tcs (S n)); cbn in *.
    constructor; [exact I | exact IH].
Qed.

Lemma message_events_body (m : Message) (n : nat) :
  Forall turn_body_event (fst (message_events uuid4 m n)).
Proof.
  destruct m as [txt tcs|tcid nm content|]; cbn.
  - pose proof (tool_call_events_body tcs n) as H.
    destruct (tool_call_events uuid4 tcs n); cbn in *.
    constructor; [exact I | exact H].
  - constructor; [exact I | constructor].
  - constructor.
Qed.

Lemma stream_events_body (ms : list Message) (n : nat) :
  Forall turn_body_event (fst (stream_events uuid4 ms n)).
Proof.
  revert n; induction ms as [|m ms IH]; intros n; cbn; [constructor|].
  pose proof (message_events_body m n) as Hm.
  destruct (message_events uuid4 m n) as [evs n1]; cbn in Hm.
  specialize (IH n1). destruct (stream_events uuid4 ms n1) as [evs' n2].
  cbn in *. apply Forall_app; split; assumption.
Qed.

Lemma body_no_agent_end (l : list VoiceAgentEvent) :
  Forall turn_body_event l -> filter is_agent_end l = [].
Proof.
  induction 1 as [|e l He _ IH]; [reflexivity|].
  cbn. destruct e; cbn in *; try contradiction; exact IH.
Qed.

Lemma body_no_final (l : list VoiceAgentEvent) :
  Forall turn_body_event l -> filter is_stt_output l = [].
Proof.
  induction 1 as [|e l He _ IH]; [reflexivity|].
  cbn. destruct e; cbn in *; try contradiction; exact IH.
Qed.

(** The loop, one input event unfolded. *)
Lemma agent_loop_final tid t rest a n :
  agent_loop uuid4 astream tid (STTOutputEvent t :: rest) a n =
  Pull (STTOutputEvent t) :: Yield (STTOutputEvent t) :: Invoke tid t ::
  map Yield (fst (stream_events uuid4 (streamed (astream a tid t)) n)) ++
  match failure (astream a tid t) with
  | None =>
      StreamDone :: Yield AgentEndEvent ::
      agent_loop uuid4 astream tid rest (agent_after (astream a tid t))
        (snd (stream_events uuid4 (streamed (astream a tid t)) n))
  | Some d => [Raise d]
  end.
Proof.
  cbn. destruct (stream_events uuid4 (streamed (astream a tid t)) n).
  reflexivity.
Qed.

Lemma agent_loop_pass tid e rest a n :
  is_stt_output e = false ->
  agent_loop uuid4 astream tid (e :: rest) a n =
  Pull e :: Yield e :: agent_loop uuid4 astream tid rest a n.
Proof.
  intros He. unfold is_stt_output in He. cbn. now rewrite He.
Qed.

Lemma final_or_not (e : VoiceAgentEvent) :
  (exists t, e = STTOutputEvent t) \/ is_stt_output e = false.
Proof. destruct e; cbn; eauto. Qed.

Lemma completed_loop tid evs a n :
  raised (agent_loop uuid4 astream tid evs a n) = false ->
  completed_turns evs (outputs (agent_loop uuid4 astream tid evs a n)).
Proof.
  revert a n; induction evs as [|e rest IH]; intros a n Hr.
  - constructor.
  - destruct (final_or_not e) as [[t ->]|He].
    + rewrite agent_loop_final in *. cbn in Hr. rewrite raised_yields in Hr.
      cbn. rewrite outputs_yields.
      destruct (failure (astream a tid t)) as [d|]; [discriminate|].
      cbn in *. apply ct_turn; [apply stream_events_body | now apply IH].
    + rewrite agent_loop_pass in * by exact He. cbn in *.
      apply ct_pass; [exact He | now apply IH].
Qed.

Lemma completed_turns_count ins outs :
  completed_turns ins outs ->
  List.length (filter is_agent_end outs) =
  List.length (filter is_agent_end ins) + List.length (finals ins).
Proof.
  unfold finals. induction 1 as [|e ins outs He _ IH|t body ins outs Hb _ IH].
  - reflexivity.
  - cbn. rewrite He. destruct (is_agent_end e); cbn; lia.
  - cbn. rewrite filter_app, (body_no_agent_end _ Hb). cbn. lia.
Qed.

Lemma invoked_loop tid evs a n :
  raised (agent_loop uuid4 astream tid evs a n) = false ->
  invoked (agent_loop uuid4 astream tid evs a n) = finals evs.
Proof.
  unfold finals.
  revert a n; induction evs as [|e rest IH]; intros a n Hr; [reflexivity|].
  destruct (final_or_not e) as [[t ->]|He].
  - rewrite agent_loop_final in *. cbn in Hr. rewrite raised_yields in Hr.
    cbn. rewrite invoked_yields.
    destruct (failure (astream a tid t)) as [d|]; [discriminate|].
    cbn in *. f_equal. now apply IH.
  - rewrite agent_loop_pass in * by exact He. cbn in *. rewrite He.
    now apply IH.
Qed.

Lemma streaming_yields (body : list VoiceAgentEvent) (tr : list Action) :
  Forall turn_body_event body ->
  one_in_flight Streaming (map Yield body ++ tr) = one_in_flight Streaming tr.
Proof.
  induction 1 as [|e l He _ IH]; [reflexivity|].
  cbn. destruct e; cbn in *; try contradiction; exact IH.
Qed.

Lemma one_in_flight_loop tid evs a n :
  one_in_flight Idle (agent_loop uuid4 astream tid evs a n) = true.
Proof.
  revert a n; induction evs as [|e rest IH]; intros a n; [reflexivity|].
  destruct (final_or_not e) as [[t ->]|He].
  - rewrite agent_loop_final. cbn -[stream_events].
    rewrite streaming_yields by apply stream_events_body.
    destruct (failure (astream a tid t)) as [d|]; cbn; [reflexivity | apply IH].
  - rewrite agent_loop_pass by exact He. cbn. apply IH.
Qed.

(** C4.  The trace of the stage keeps one turn in flight: the agent is
    invoked, and the next input event pulled, only between turns, that is
    after the previous stream is done and its end marker yielded; and when
    no stream raises, every final transcript of the input is handed to the
    agent, in the order of arrival. *)
Theorem one_turn_in_flight (evs : list VoiceAgentEvent) (a : A) :
  one_in_flight Idle (_agent_stream uuid4 astream evs a) = true /\
  (raised (_agent_stream uuid4 astream evs a) = false ->
   invoked (_agent_stream uuid4 astream evs a) = finals evs).
Proof.
  split; [apply one_in_flight_loop | apply invoked_loop].
Qed.

Lemma aborted_loop tid evs a n :
  raised (agent_loop uuid4 astream tid evs a n) = true ->
  exists pre t post body d tr,
    evs = pre ++ STTOutputEvent t :: post /\
    raised (agent_loop uuid4 astream tid pre a n) = false /\
    Forall turn_body_event body /\
    outputs (agent_loop uuid4 astream tid evs a n) =
      outputs (agent_loop uuid4 astream tid pre a n)
      ++ STTOutputEvent t :: body /\
    agent_loop uuid4 astream tid evs a n = tr ++ [Raise d].
Proof.
  revert a n; induction evs as [|e rest IH]; intros a n Hr; [discriminate|].
  destruct (final_or_not e) as [[t ->]|He].
  - rewrite agent_loop_final in Hr. cbn in Hr. rewrite raised_yields in Hr.
    destruct (failure (astream a tid t)) as [d|] eqn:Hf.
    + exists [], t, rest,
        (fst (stream_events uuid4 (streamed (astream a tid t)) n)), d,
        (Pull (STTOutputEvent t) :: Yield (STTOutputEvent t) :: Invoke tid t
         :: map Yield
              (fst (stream_events uuid4 (streamed (astream a tid t)) n))).
      rewrite agent_loop_final, Hf. cbn -[stream_events].
      rewrite outputs_yields. cbn -[stream_events].
      repeat split; try reflexivity.
      * apply stream_events_body.
      * now rewrite app_nil_r.
    + cbn in Hr. apply IH in Hr.
      destruct Hr as (pre & t' & post & body & d & tr & -> & Hp & Hb & Ho & Ht).
      exists (STTOutputEvent t :: pre), t', post, body, d,
        (Pull (STTOutputEvent t) :: Yield (STTOutputEvent t) :: Invoke tid t
         :: map Yield
              (fst (stream_events uuid4 (streamed (astream a tid t)) n))
         ++ StreamDone :: Yield AgentEndEvent :: tr).
      cbn [app]. rewrite !agent_loop_final, Hf. cbn -[stream_events].
      rewrite !raised_yields, !outputs_yields. cbn -[stream_events].
      rewrite Ho, Ht, <- !app_assoc. cbn -[stream_events].
      repeat split; try reflexivity; assumption.
  - rewrite agent_loop_pass in Hr by exact He. cbn in Hr. apply IH in Hr.
    destruct Hr as (pre & t' & post & body & d & tr & -> & Hp & Hb & Ho & Ht).
    exists (e :: pre), t', post, body, d, (Pull e :: Yield e :: tr).
    cbn [app]. rewrite !agent_loop_pass by exact He. cbn.
    rewrite Ho, Ht. repeat split; try reflexivity; assumption.
Qed.

End Stage.

Section ErrorDetail.

Variable uuid4 : nat -> string.
Variable A : Type.
Variables f g : A -> string -> string -> AgentRun A.
Hypothesis Hfg : same_but_detail f g.

Lemma outputs_same_detail tid evs a n :
  outputs (agent_loop uuid4 f tid evs a n) =
  outputs (agent_loop uuid4 g tid evs a n).
Proof.
  revert a n; induction evs as [|e rest IH]; intros a n; [reflexivity|].
  destruct (final_or_not e) as [[t ->]|He].
  - rewrite !agent_loop_final. cbn -[stream_events].
    rewrite !outputs_yields.
    destruct (Hfg a tid t) as (Hs & Ha & Hd). rewrite <- Hs, <- Ha.
    destruct (failure (f a tid t)), (failure (g a tid t));
      cbn -[stream_events] in *; try discriminate;
      [reflexivity | now rewrite IH].
  - rewrite !agent_loop_pass by exact He. cbn. now rewrite IH.
Qed.

End ErrorDetail.

(** C6, as the code has it.  When an agent stream raises, the run ends
    there: the error leaves the generator as the last thing it does, the
    output stops after the events of the failing turn streamed so far, and
    no end marker follows the failing turn's final transcript.  The output
    is the same whatever the detail of the errors: none of it reaches the
    event stream. *)
Theorem agent_failure_ends_stream (uuid4 : nat -> string) (A : Type)
  (f g : A -> string -> string -> AgentRun A)
  (evs : list VoiceAgentEvent) (a : A) :
  raised (_agent_stream uuid4 f evs a) = true ->
  same_but_detail f g ->
  (exists pre t post body d tr,
     evs = pre ++ STTOutputEvent t :: post /\
     raised (_agent_stream uuid4 f pre a) = false /\
     Forall turn_body_event body /\
     outputs (_agent_stream uuid4 f evs a) =
       outputs (_agent_stream uuid4 f pre a) ++ STTOutputEvent t :: body /\
     _agent_stream uuid4 f evs a = tr ++ [Raise d]) /\
  outputs (_agent_stream uuid4 f evs a) = outputs (_agent_stream uuid4 g evs a).
Proof.
  intros Hr Hfg. split.
  - now apply aborted_loop.
  - now apply outputs_same_detail.
Qed.

Section Ids.

Variable uuid4 : nat -> string.

Lemma tool_call_ids_app (l1 l2 : list VoiceAgentEvent) :
  tool_call_ids (l1 ++ l2) = tool_call_ids l1 ++ tool_call_ids l2.
Proof.
  induction l1 as [|e l1 IH]; [reflexivity|].
  destruct e; cbn; rewrite ?IH; reflexivity.
Qed.

Lemma fresh_ids_app (c1 c2 : list ToolCall) (i1 i2 : list string) :
  List.length c1 = List.length i1 ->
  fresh_ids (c1 ++ c2) (i1 ++ i2) = fresh_ids c1 i1 ++ fresh_ids c2 i2.
Proof.
  revert i1; induction c1 as [|tc c1 IH]; intros [|i i1] Hl;
    try discriminate; [reflexivity|].
  cbn in *. injection Hl as Hl. rewrite (IH _ Hl).
  destruct (lacks_id tc); reflexivity.
Qed.

(** What [tool_call_events] does with the ids. *)
Lemma tool_call_events_ids (tcs : list ToolCall) (n : nat) :
  let ids := tool_call_ids (fst (tool_call_events uuid4 tcs n)) in
  Forall2 (fun tc id => forall i, supplied (tc_id tc) = Some i -> id = i)
          tcs ids /\
  fresh_ids tcs ids = map uuid4 (seq n (List.length (filter lacks_id tcs))) /\
  snd (tool_call_events uuid4 tcs n) = n + List.length (filter lacks_id tcs).
Proof.
  revert n; induction tcs as [|tc tcs IH]; intros n; cbn.
  - repeat split; [constructor | lia].
  - unfold lacks_id at 1 3 5. destruct (supplied (tc_id tc)) as [i|] eqn:Hs.
    + destruct (IH n) as (H1 & H2 & H3).
      destruct (tool_call_events uuid4 tcs n) as [evs n2]; cbn in *.
      unfold lacks_id at 1. rewrite Hs. cbn.
      repeat split; try assumption.
      constructor; [intros j Hj; congruence | exact H1].
    + destruct (IH (S n)) as (H1 & H2 & H3).
      destruct (tool_call_events uuid4 tcs (S n)) as [evs n2]; cbn in *.
      unfold lacks_id at 1. rewrite Hs. cbn.
      repeat split.
      * constructor; [intros j Hj; congruence | exact H1].
      * f_equal. exact H2.
      * lia.
Qed.

Lemma message_events_ids (m : Message) (n : nat) :
  let ids := tool_call_ids (fst (message_events uuid4 m n)) in
  let calls := message_tool_calls m in
  Forall2 (fun tc id => forall i, supplied (tc_id tc) = Some i -> id = i)
          calls ids /\
  fresh_ids calls ids =
    map uuid4 (seq n (List.length (filter lacks_id calls))) /\
  snd (message_events uuid4 m n) = n + List.length (filter lacks_id calls).
Proof.
  destruct m as [txt tcs|tcid nm content|]; cbn.
  - pose proof (tool_call_events_ids tcs n) as H. cbn in H.
    destruct (tool_call_events uuid4 tcs n) as [evs n']. exact H.
  - repeat split; [constructor | lia].
  - repeat split; [constructor | lia].
Qed.

Lemma stream_events_ids (ms : list Message) (n : nat) :
  let ids := tool_call_ids (fst (stream_events uuid4 ms n)) in
  let calls := all_tool_calls ms in
  Forall2 (fun tc id => forall i, supplied (tc_id tc) = Some i -> id = i)
          calls ids /\
  fresh_ids calls ids =
    map uuid4 (seq n (List.length (filter lacks_id calls))) /\
  snd (stream_events uuid4 ms n) = n + List.length (filter lacks_id calls).
Proof.
  unfold all_tool_calls.
  revert n; induction ms as [|m ms IH]; intros n; cbn.
  - repeat split; [constructor | lia].
  - destruct (message_events_ids m n) as (M1 & M2 & M3).
    destruct (message_events uuid4 m n) as [evs n1]; cbn in M1, M2, M3.
    destruct (IH n1) as (H1 & H2 & H3).
    destruct (stream_events uuid4 ms n1) as [evs' n2]; cbn in H1, H2, H3.
    cbn. rewrite tool_call_ids_app, filter_app, length_app, seq_app, map_app.
    repeat split.
    + now apply Forall2_app.
    + rewrite fresh_ids_app by exact (Forall2_length M1).
      rewrite M2, H2, M3. reflexivity.
    + lia.
Qed.

Lemma matched_mono (s1 s2 : list string) (l : list VoiceAgentEvent) :
  incl s1 s2 -> results_matched s1 l = true -> results_matched s2 l = true.
Proof.
  revert s1 s2; induction l as [|e l IH]; intros s1 s2 Hi; [reflexivity|].
  destruct e; cbn; try (now apply IH).
  - apply IH. intros x [->|Hx]; [now left | right; now apply Hi].
  - rewrite !andb_true_iff. intros [He Hl]. split; [|now apply (IH s1)].
    apply existsb_exists in He. destruct He as (x & Hx & Hex).
    apply existsb_exists. exists x. split; [now apply Hi | exact Hex].
Qed.





(** What one [AIMessage] gives, and the chunk texts of a stream. *)
Lemma chunk_then_tool_calls (txt : string) (tcs : list ToolCall)
  (ms : list Message) (n : nat) :
  (fst (message_events uuid4 (AIMessage txt tcs) n) =
     AgentChunkEvent txt :: fst (tool_call_events uuid4 tcs n) /\
   forallb is_tool_call (fst (tool_call_events uuid4 tcs n)) = true /\
   List.length (fst (tool_call_events uuid4 tcs n)) = List.length tcs) /\
  chunk_texts (fst (stream_events uuid4 ms n)) = ai_texts ms.
Proof.
  assert (Htc : forall l k,
             forallb is_tool_call (fst (tool_call_events uuid4 l k)) = true /\
             List.length (fst (tool_call_events uuid4 l k)) = List.length l /\
             chunk_texts (fst (tool_call_events uuid4 l k)) = []).
  { induction l as [|tc l IH]; intros k; cbn; [repeat split|].
    destruct (supplied (tc_id tc)).
    - destruct (IH k) as (Ha & Hb & Hc).
      destruct (tool_call_events uuid4 l k); cbn in *.
      repeat split; [exact Ha | now rewrite Hb | exact Hc].
    - destruct (IH (S k)) as (Ha & Hb & Hc).
      destruct (tool_call_events uuid4 l (S k)); cbn in *.
      repeat split; [exact Ha | now rewrite Hb | exact Hc]. }
  split.
  - destruct (Htc tcs n) as (Ha & Hb & _). cbn.
    destruct (tool_call_events uuid4 tcs n); cbn in *. repeat split; assumption.
  - revert n; induction ms as [|m ms IH]; intros n; [reflexivity|].
    cbn. destruct m as [t l|tcid nm content|]; cbn.
    + destruct (Htc l n) as (_ & _ & Hc).
      destruct (tool_call_events uuid4 l n) as [evs n1]; cbn in Hc.
      specialize (IH n1). destruct (stream_events uuid4 ms n1) as [evs' n2].
      cbn in *. unfold chunk_texts in *. cbn.
      rewrite filter_app, map_app, Hc, IH. reflexivity.
    + specialize (IH n). destruct (stream_events uuid4 ms n) as [evs' n2].
      exact IH.
    + specialize (IH n). destruct (stream_events uuid4 ms n) as [evs' n2].
      exact IH.
Qed.

End Ids.

Import Examples.

Lemma tally_inj (i j : nat) : tally i = tally j -> i = j.
Proof.
  revert j; induction i as [|i IH]; intros [|j] H; cbn in H;
    try discriminate; [reflexivity|].
  injection H as H. f_equal. now apply IH.
Qed.

Lemma demo_uuid4_inj (i j : nat) : demo_uuid4 i = demo_uuid4 j -> i = j.
Proof.
  unfold demo_uuid4. cbn. intros H. injection H as H. now apply tally_inj.
Qed.

(** The scenario of section 8 of the specification, run through the stage. *)
Example turkey_sandwich_turn :
  outputs (_agent_stream demo_uuid4 order_agent utterance 0) =
  [STTChunkEvent "add a"; STTOutputEvent "add a turkey sandwich";
   AgentChunkEvent "Sure, ";
   ToolCallEvent "t1" "add_to_order"
                 [("item", "turkey sandwich"); ("quantity", "1")];
   ToolResultEvent "t1" "add_to_order"
                   "Added 1 x turkey sandwich to the order.";
   AgentChunkEvent "Anything else?"; AgentEndEvent].
Proof. reflexivity. Qed.

Lemma one_turn_in_flight_witness :
  raised (_agent_stream demo_uuid4 order_agent two_utterances 0) = false /\
  invoked (_agent_stream demo_uuid4 order_agent two_utterances 0)
  = ["add a turkey sandwich"; "that is all"].
Proof.
  split; [reflexivity|].
  apply (proj2 (one_turn_in_flight demo_uuid4 nat order_agent
                  two_utterances 0)).
  reflexivity.
Defined.

(** A failing agent: the turn gets no end marker, against C6. *)
Lemma agent_failure_no_agent_end :
  _agent_stream demo_uuid4 failing_agent utterance 0 =
  [Pull (STTChunkEvent "add a"); Yield (STTChunkEvent "add a");
   Pull (STTOutputEvent "add a turkey sandwich");
   Yield (STTOutputEvent "add a turkey sandwich");
   Invoke "uuid-" "add a turkey sandwich";
   Yield (AgentChunkEvent "Su"); Raise "rate limit exceeded"] /\
  List.length
    (filter is_agent_end
       (outputs (_agent_stream demo_uuid4 failing_agent utterance 0))) <> 1.
Proof. split; [reflexivity | cbn; discriminate]. Qed.

Lemma agent_failure_ends_stream_witness :
  raised (_agent_stream demo_uuid4 failing_agent utterance 0) = true /\
  same_but_detail failing_agent failing_agent' /\
  outputs (_agent_stream demo_uuid4 failing_agent utterance 0) =
  outputs (_agent_stream demo_uuid4 failing_agent' utterance 0).
Proof.
  assert (Hd : same_but_detail failing_agent failing_agent')
    by (intros a tid t; repeat split; reflexivity).
  split; [reflexivity|]. split; [exact Hd|].
  apply (agent_failure_ends_stream demo_uuid4 nat failing_agent
           failing_agent' utterance 0); [reflexivity | exact Hd].
Defined.



End DialogFacts.

(** ** The turn buffer *)

Module TtsFacts.
Import Tts.

Lemma submitted_app (a1 a2 : list Action) :
  submitted (a1 ++ a2) = submitted a1 ++ submitted a2.
Proof.
  induction a1 as [|[e|s] a1 IH]; cbn;
    [reflexivity | exact IH | now rewrite IH].
Qed.

Lemma passed_app (a1 a2 : list Action) :
  passed (a1 ++ a2) = passed a1 ++ passed a2.
Proof.
  induction a1 as [|[e|s] a1 IH]; cbn;
    [reflexivity | now rewrite IH | exact IH].
Qed.

Lemma process_upstream_app (l1 l2 : list VoiceAgentEvent) (b : list string) :
  process_upstream (l1 ++ l2) b =
  (fst (process_upstream l1 b)
     ++ fst (process_upstream l2 (snd (process_upstream l1 b))),
   snd (process_upstream l2 (snd (process_upstream l1 b)))).
Proof.
  revert b; induction l1 as [|e l1 IH]; intros b.
  - cbn. now destruct (process_upstream l2 b).
  - cbn. destruct (step b e) as [acts b1]. rewrite IH.
    destruct (process_upstream l1 b1) as [acts1 b2]. cbn.
    now rewrite app_assoc.
Qed.

(** The buffer holds the chunk texts since the last end marker. *)
Lemma buffer_invariant (evs : list VoiceAgentEvent) (b : list string) :
  snd (process_upstream evs b) =
  if existsb is_agent_end evs then since_last_end evs
  else b ++ chunk_texts evs.
Proof.
  revert b; induction evs as [|e rest IH]; intros b.
  - cbn. now rewrite app_nil_r.
  - cbn [process_upstream]. destruct (step b e) as [acts b1] eqn:Hs.
    specialize (IH b1). destruct (process_upstream rest b1) as [acts' b2].
    cbn [snd] in *. rewrite IH. cbn [existsb since_last_end].
    destruct (existsb is_agent_end rest).
    + now rewrite orb_true_r.
    + rewrite orb_false_r. unfold step in Hs.
      destruct e; cbn in Hs |- *; injection Hs as <- <-;
        rewrite <- ?app_assoc; reflexivity.
Qed.

Lemma submitted_at_end (pre : list VoiceAgentEvent) :
  submitted (fst (process_upstream (pre ++ [AgentEndEvent]) [])) =
  submitted (fst (process_upstream pre []))
  ++ [String.concat "" (since_last_end pre)].
Proof.
  rewrite process_upstream_app. cbn [fst]. rewrite submitted_app.
  f_equal. rewrite buffer_invariant. cbn.
  assert (H : (if existsb is_agent_end pre then since_last_end pre
               else chunk_texts pre) = since_last_end pre).
  { destruct pre as [|e rest]; [reflexivity|].
    cbn [existsb since_last_end].
    destruct (existsb is_agent_end rest) eqn:Hr;
      [now rewrite orb_true_r | rewrite orb_false_r].
    now destruct (is_agent_end e). }
  now rewrite H.
Qed.

Lemma submitted_count (evs : list VoiceAgentEvent) (b : list string) :
  List.length (submitted (fst (process_upstream evs b))) =
  List.length (filter is_agent_end evs).
Proof.
  revert b; induction evs as [|e rest IH]; intros b; [reflexivity|].
  cbn [process_upstream]. destruct (step b e) as [acts b1] eqn:Hs.
  specialize (IH b1). destruct (process_upstream rest b1) as [acts' b2].
  cbn [fst] in *. rewrite submitted_app, length_app, IH.
  unfold step in Hs.
  destruct e; cbn in Hs |- *; injection Hs as <- <-; reflexivity.
Qed.

(** C1.  While the stage reads [pre], its buffer holds, in arrival order,
    the chunk texts seen since the last end marker (or since the start).
    On the next end marker it calls [send_text] once more, with exactly
    the concatenation of these texts, and leaves the buffer empty; all
    events are passed on unchanged. *)
Theorem turn_text_submitted (pre : list VoiceAgentEvent) :
  snd (process_upstream pre []) = since_last_end pre /\
  submitted (fst (process_upstream (pre ++ [AgentEndEvent]) [])) =
    submitted (fst (process_upstream pre []))
    ++ [String.concat "" (since_last_end pre)] /\
  snd (process_upstream (pre ++ [AgentEndEvent]) []) = [] /\
  passed (fst (process_upstream (pre ++ [AgentEndEvent]) [])) =
    pre ++ [AgentEndEvent].
Proof.
  split; [|split; [apply submitted_at_end | split]].
  - rewrite buffer_invariant. destruct pre as [|e rest]; [reflexivity|].
    cbn [existsb since_last_end].
    destruct (existsb is_agent_end rest);
      [now rewrite orb_true_r | rewrite orb_false_r].
    now destruct (is_agent_end e).
  - rewrite process_upstream_app. reflexivity.
  - generalize (@nil string).
    induction (pre ++ [AgentEndEvent]) as [|e l IH]; intros b; [reflexivity|].
    cbn [process_upstream]. destruct (step b e) as [acts b1] eqn:Hs.
    specialize (IH b1). destruct (process_upstream l b1) as [acts' b2].
    cbn [fst] in *. rewrite passed_app, IH. unfold step in Hs.
    destruct (type_ e =? "agent_end"); injection Hs as <- <-; reflexivity.
Qed.

(** The texts of a turn in the scenario of section 8. *)
Example turkey_sandwich_speech :
  submitted
    (fst (process_upstream
            (Dialog.outputs
               (Dialog._agent_stream Examples.demo_uuid4 Examples.order_agent
                  Examples.utterance 0)) [])) =
  ["Sure, Anything else?"].
Proof. reflexivity. Qed.

(** C2, as the code has it.  The stage calls [send_text] once for every
    end marker it reads, whatever the buffer holds; when the texts of the
    turn concatenate to the empty string, the call is made with the empty
    string. *)
Theorem send_text_on_every_agent_end (evs pre : list VoiceAgentEvent) :
  List.length (submitted (fst (process_upstream evs []))) =
    List.length (filter is_agent_end evs) /\
  (String.concat "" (since_last_end pre) = "" ->
   submitted (fst (process_upstream (pre ++ [AgentEndEvent]) [])) =
     submitted (fst (process_upstream pre [])) ++ [""]).
Proof.
  split; [apply submitted_count|].
  intros He. now rewrite submitted_at_end, He.
Qed.

(** A turn whose chunks are all empty: [send_text] is called, against C2. *)
Lemma empty_turn_is_submitted :
  String.concat ""
    (since_last_end [STTOutputEvent "hm"; AgentChunkEvent ""]) = "" /\
  submitted
    (fst (process_upstream
            [STTOutputEvent "hm"; AgentChunkEvent ""; AgentEndEvent] []))
  = [""] /\
  fst (process_upstream [AgentEndEvent] []) =
    [Yield AgentEndEvent; SendText ""].
Proof. repeat split. Qed.

Lemma send_text_on_every_agent_end_witness :
  String.concat ""
    (since_last_end [STTOutputEvent "hm"; AgentChunkEvent ""]) = "" /\
  submitted
    (fst (process_upstream
            ([STTOutputEvent "hm"; AgentChunkEvent ""] ++ [AgentEndEvent]) []))
  = submitted
      (fst (process_upstream [STTOutputEvent "hm"; AgentChunkEvent ""] []))
    ++ [""].
Proof.
  split; [reflexivity|].
  apply (proj2 (send_text_on_every_agent_end []
                  [STTOutputEvent "hm"; AgentChunkEvent ""])).
  reflexivity.
Defined.

End TtsFacts.

(** ** The recogniser's handle and the audio-ingest stage *)

Module SttFacts.
Import Stt.

Lemma run_app (m : Machine) (l1 l2 : list Call) :
  run m (l1 ++ l2) =
  (yielded (run m l1) ++ yielded (run (machine_of (run m l1)) l2),
   ops_of (run m l1) ++ ops_of (run (machine_of (run m l1)) l2),
   machine_of (run (machine_of (run m l1)) l2)).
Proof.
  unfold yielded, ops_of, machine_of.
  revert m; induction l1 as [|c l1 IH]; intros m.
  - cbn. now destruct (run m l2) as [[evs ops] m2].
  - cbn. destruct (exec m c) as [[evs ops] m1]. rewrite IH.
    destruct (run m1 l1) as [[evs1 ops1] m2]. cbn.
    now rewrite !app_assoc.
Qed.

Lemma count_op_app (o : Op) (a b : list Op) :
  count_op o (a ++ b) = count_op o a + count_op o b.
Proof. unfold count_op. now rewrite filter_app, length_app. Qed.

(** Sending and receiving wind nothing up. *)
Lemma no_teardown_without_close (o : Op) (cs : list Call) (m : Machine) :
  teardown o -> forallb not_close cs = true ->
  count_op o (ops_of (run m cs)) = 0.
Proof.
  intros Ho. unfold ops_of.
  revert m; induction cs as [|c cs IH]; intros m Hc; [reflexivity|].
  cbn in Hc. apply andb_true_iff in Hc. destruct Hc as [Hc Hcs].
  cbn. destruct c as [d r|it|d]; [| |discriminate]; cbn.
  - unfold send_audio.
    destruct (negb (is_connected (handle m)) || negb (is_some (ws (handle m))));
      [|destruct r]; cbn;
      match goal with
      | |- context [run ?m' cs] =>
          specialize (IH m' Hcs); destruct (run m' cs) as [[evs ops] m2]
      end; cbn in *; try exact IH;
      destruct Ho as [->| [->| ->]]; exact IH.
  - destruct (receive_next (receiver m) (handle m) it) as [[evs rcv] s].
    match goal with
    | |- context [run ?m' cs] =>
        specialize (IH m' Hcs); destruct (run m' cs) as [[evs' ops] m2]
    end. exact IH.
Qed.

(** A handle that holds neither socket nor client reaches nobody. *)
Lemma closed_handle_silent (cs : list Call) (m : Machine) :
  ws (handle m) = None -> client (handle m) = None ->
  ops_of (run m cs) = [].
Proof.
  unfold ops_of.
  revert m; induction cs as [|c cs IH]; intros m Hw Hc; [reflexivity|].
  cbn. destruct c as [d r|it|d]; cbn.
  - unfold send_audio. rewrite Hw. cbn. rewrite orb_true_r.
    specialize (IH {| handle := handle m; receiver := receiver m |} Hw Hc).
    destruct (run _ cs) as [[evs ops] m2]. exact IH.
  - destruct (receive_next (receiver m) (handle m) it) as [[evs rcv] s] eqn:Hr.
    assert (Hs : ws s = None /\ client s = None).
    { unfold receive_next, receive_body in Hr.
      repeat match type of Hr with
             | context [match ?x with _ => _ end] => destruct x
             end; injection Hr as <- <- <-; split; assumption. }
    specialize (IH {| handle := s; receiver := rcv |} (proj1 Hs) (proj2 Hs)).
    destruct (run _ cs) as [[evs' ops] m2]. exact IH.
  - rewrite Hw, Hc.
    specialize (IH {| handle :=
                        {| client := None; ws := None; is_connected := false;
                           _close_signal := true |};
                      receiver := receiver m |} eq_refl eq_refl).
    destruct (run _ cs) as [[evs ops] m2]. exact IH.
Qed.

Lemma close_ops_once (o : Op) (d : bool) (s : CartesiaSTT) :
  count_op o (snd (fst (close d s))) <= 1.
Proof.
  unfold close. cbn.
  destruct (ws s), (client s), d, o; cbn; lia.
Qed.

Lemma one_teardown (o : Op) (pre rest : list Call) (d : bool) (m : Machine) :
  teardown o -> forallb not_close pre = true ->
  count_op o (ops_of (run m (pre ++ CallClose d :: rest))) <= 1.
Proof.
  intros Ho Hp. rewrite run_app. unfold ops_of at 1. cbn [fst snd].
  rewrite count_op_app, (no_teardown_without_close o pre m Ho Hp).
  set (m1 := machine_of (run m pre)).
  pose proof (close_ops_once o d (handle m1)) as Hc.
  pose proof (closed_handle_silent rest
                {| handle := snd (close d (handle m1));
                   receiver := receiver m1 |} eq_refl eq_refl) as Hs.
  unfold ops_of in *. cbn [run exec]. unfold close in *. cbn [fst snd] in *.
  destruct (run _ rest) as [[evs ops] m2]. cbn [fst snd] in *. subst ops.
  rewrite app_nil_r. lia.
Qed.

Lemma filter_not_close (cs : list Call) :
  forallb not_close (filter not_close cs) = true.
Proof.
  induction cs as [|c cs IH]; [reflexivity|].
  cbn. destruct (not_close c) eqn:Hc; [cbn; now rewrite Hc | exact IH].
Qed.

Lemma close_calls_app (a b : list Call) :
  close_calls (a ++ b) = close_calls a + close_calls b.
Proof. unfold close_calls. now rewrite filter_app, length_app. Qed.

Lemma close_calls_none (cs : list Call) :
  forallb not_close cs = true -> close_calls cs = 0.
Proof.
  unfold close_calls, not_close.
  induction cs as [|c cs IH]; [reflexivity|]. cbn.
  destruct (is_call_close c); cbn; [discriminate | exact IH].
Qed.

Lemma close_calls_receives (items : list Item) :
  close_calls (map CallReceive items) = 0.
Proof. unfold close_calls. induction items; [reflexivity | exact IHitems]. Qed.

Lemma forallb_filter_keep (p q : Call -> bool) (cs : list Call) :
  forallb p cs = true -> forallb p (filter q cs) = true.
Proof.
  induction cs as [|c cs IH]; [reflexivity|]. cbn.
  intros H. apply andb_true_iff in H. destruct H as [Hc Hcs].
  destruct (q c); cbn; [rewrite Hc|]; now apply IH.
Qed.

(** What the collaborator sees of that session on a connected handle. *)
Example input_ended_on_connected_handle :
  run {| handle := Examples.connected; receiver := NotStarted |}
      (_stt_stream Examples.session_input_ended) =
  ([STTChunkEvent "he"],
   [WsSend [1; 2]; WsSend [3; 4]; WsSendDone; WsClose; ClientClose],
   {| handle := {| client := None; ws := None; is_connected := false;
                   _close_signal := true |};
      receiver := Finished |}).
Proof. reflexivity. Qed.

Ltac settle :=
  repeat split; try assumption; try discriminate; try congruence.

(** Two machines that the reading loop cannot tell apart. *)
Lemma exec_alike (m m' : Machine) (c : Call) :
  receiver m = receiver m' -> receiver m <> NotStarted ->
  _close_signal (handle m) = _close_signal (handle m') ->
  yielded (exec m c) = yielded (exec m' c) /\
  receiver (machine_of (exec m c)) = receiver (machine_of (exec m' c)) /\
  receiver (machine_of (exec m c)) <> NotStarted /\
  _close_signal (handle (machine_of (exec m c))) =
  _close_signal (handle (machine_of (exec m' c))).
Proof.
  intros Hr Hn Hs. unfold yielded, machine_of.
  destruct c as [d r|it|d]; cbn.
  - unfold send_audio.
    destruct (negb (is_connected (handle m)) || negb (is_some (ws (handle m))));
      destruct (negb (is_connected (handle m'))
                || negb (is_some (ws (handle m'))));
      destruct r; cbn; settle.
  - rewrite <- Hr. unfold receive_next, receive_body.
    destruct (receiver m); [contradiction| |]; cbn; [|settle].
    destruct it as [res| |e]; cbn; [|settle|settle].
    rewrite <- Hs. destruct (_close_signal (handle m)) eqn:Hcs; [cbn; settle|].
    destruct (from_option "" (r_type res) =? "transcript").
    + destruct (from_option false (r_is_final res)); cbn; settle.
    + destruct (from_option "" (r_type res) =? "done"); cbn; settle.
  - settle.
Qed.

Lemma run_alike (cs : list Call) (m m' : Machine) :
  receiver m = receiver m' -> receiver m <> NotStarted ->
  _close_signal (handle m) = _close_signal (handle m') ->
  yielded (run m cs) = yielded (run m' cs).
Proof.
  unfold yielded.
  revert m m'; induction cs as [|c cs IH]; intros m m' Hr Hn Hs;
    [reflexivity|].
  destruct (exec_alike m m' c Hr Hn Hs) as (Hy & Hr1 & Hn1 & Hs1).
  unfold yielded, machine_of in *. cbn.
  destruct (exec m c) as [[evs ops] m1], (exec m' c) as [[evs' ops'] m1'].
  cbn in *. specialize (IH m1 m1' Hr1 Hn1 Hs1).
  destruct (run m1 cs) as [[e1 o1] m2], (run m1' cs) as [[e2 o2] m2'].
  cbn in *. now rewrite Hy, IH.
Qed.

(** C8.  On a handle that is connected, with the reading loop under way
    (the stage starts reading before the sending task first runs), a send
    that the collaborator fails returns normally, leaves the connected flag
    false and the reading loop where it was; and whatever the two tasks do
    next, the events read are those read had the send succeeded. *)
Theorem send_failure_swallowed (m : Machine) (audio_data : list nat)
  (e : string) (cs : list Call) :
  is_connected (handle m) = true ->
  is_some (ws (handle m)) = true ->
  receiver m = InLoop ->
  fst (fst (send_audio audio_data (Some e) (handle m))) = Returned /\
  snd (fst (send_audio audio_data (Some e) (handle m))) = [WsSend audio_data] /\
  is_connected (snd (send_audio audio_data (Some e) (handle m))) = false /\
  receiver (machine_of (exec m (CallSendAudio audio_data (Some e)))) = InLoop /\
  yielded (run m (CallSendAudio audio_data (Some e) :: cs)) =
  yielded (run m (CallSendAudio audio_data None :: cs)).
Proof.
  intros Hc Hw Hr.
  assert (Hfail : send_audio audio_data (Some e) (handle m) =
                  (Returned, [WsSend audio_data],
                   set_is_connected false (handle m)))
    by (unfold send_audio; now rewrite Hc, Hw).
  assert (Hok : send_audio audio_data None (handle m) =
                (Returned, [WsSend audio_data], handle m))
    by (unfold send_audio; now rewrite Hc, Hw).
  rewrite Hfail. cbn [fst snd].
  do 3 (split; [reflexivity|]). split.
  - unfold machine_of. cbn [exec]. rewrite Hfail. exact Hr.
  - unfold yielded. cbn [run exec]. rewrite Hfail, Hok.
    assert (Hn : receiver m <> NotStarted) by (rewrite Hr; discriminate).
    pose proof (run_alike cs
                  {| handle := set_is_connected false (handle m);
                     receiver := receiver m |}
                  {| handle := handle m; receiver := receiver m |}
                  eq_refl Hn eq_refl) as H.
    unfold yielded in H.
    destruct (run _ cs) as [[e1 o1] m1], (run _ cs) as [[e2 o2] m2].
    cbn in *. now rewrite H.
Qed.

Lemma send_failure_swallowed_witness :
  let m := {| handle := Examples.connected; receiver := InLoop |} in
  is_connected (snd (send_audio [1; 2] (Some "broken pipe") (handle m)))
  = false /\
  yielded (run m [CallSendAudio [1; 2] (Some "broken pipe");
                  CallReceive (Next Examples.partial_hello);
                  CallSendAudio [3; 4] None;
                  CallReceive (Next Examples.final_hello)])
  = [STTChunkEvent "he"; STTOutputEvent "hello"].
Proof.
  pose proof (send_failure_swallowed
                {| handle := Examples.connected; receiver := InLoop |}
                [1; 2] "broken pipe"
                [CallReceive (Next Examples.partial_hello);
                 CallSendAudio [3; 4] None;
                 CallReceive (Next Examples.final_hello)]
                eq_refl eq_refl eq_refl) as (_ & _ & Hf & _ & Hy).
  split; [exact Hf | rewrite Hy; reflexivity].
Defined.

(** C9.  The connected flag is false on a fresh handle, after a handshake
    that failed, after a send or a receive that failed, and after [close].
    On a handle whose flag is false, [send_audio] returns normally without
    reaching the collaborator and leaves the handle as it is;
    [receive_events] yields nothing, reaches nobody, leaves the handle as it
    is and, once resumed, has returned. *)
Theorem disconnected_handle_inert (s : CartesiaSTT) (audio_data : list nat)
  (send_result : option string) (it : Item) (items : list Item)
  (e : string) (d : bool) :
  (is_connected init = false /\
   is_connected (snd (connect (Some e) init)) = false /\
   (is_some (ws s) = true ->
    is_connected (snd (send_audio audio_data (Some e) s)) = false) /\
   is_connected (snd (receive_body s (Failed e))) = false /\
   is_connected (snd (close d s)) = false) /\
  (is_connected s = false ->
   send_audio audio_data send_result s = (Returned, [], s) /\
   yielded (receive_events s items) = [] /\
   ops_of (receive_events s items) = [] /\
   handle (machine_of (receive_events s items)) = s /\
   receiver (machine_of (receive_events s (it :: items))) = Finished).
Proof.
  split.
  - repeat split.
    intros Hw. unfold send_audio. rewrite Hw.
    now destruct (is_connected s) eqn:Hc.
  - intros Hc.
    assert (Hfin : forall l,
               run {| handle := s; receiver := Finished |}
                   (map CallReceive l) =
               ([], [], {| handle := s; receiver := Finished |})).
    { induction l as [|x l IH]; [reflexivity|]. cbn. now rewrite IH. }
    assert (Hrun : forall l,
               yielded (receive_events s l) = [] /\
               ops_of (receive_events s l) = [] /\
               handle (machine_of (receive_events s l)) = s).
    { intros [|x l]; [repeat split|].
      unfold receive_events, yielded, ops_of, machine_of. cbn.
      rewrite Hc. cbn. rewrite Hfin. repeat split. }
    split; [unfold send_audio; now rewrite Hc|].
    destruct (Hrun items) as (H1 & H2 & H3). repeat split; try assumption.
    unfold receive_events, machine_of. cbn. rewrite Hc. cbn. now rewrite Hfin.
Qed.

Lemma disconnected_handle_inert_witness :
  is_connected init = false /\
  is_some (ws Examples.connected) = true /\
  is_connected
    (snd (send_audio [1; 2] (Some "broken pipe") Examples.connected)) = false /\
  send_audio [1; 2] (Some "broken pipe") init = (Returned, [], init) /\
  yielded (receive_events init [Next Examples.final_hello]) = [].
Proof.
  split; [reflexivity|]. split; [reflexivity|].
  pose proof (disconnected_handle_inert Examples.connected [1; 2] None
                Exhausted [] "broken pipe" false)
    as ((_ & _ & Hf & _) & _).
  pose proof (disconnected_handle_inert init [1; 2] (Some "broken pipe")
                Exhausted [Next Examples.final_hello] "broken pipe" false)
    as (_ & Hi).
  destruct (Hi eq_refl) as (Hs & Hy & _).
  split; [exact (Hf eq_refl) | split; [exact Hs | exact Hy]].
Defined.

End SttFacts.

(** ** More on the dialog stage *)

Module DialogMore.
Import Dialog DialogFacts.

Section Stage.

Variable uuid4 : nat -> string.
Variable A : Type.
Variable astream : A -> string -> string -> AgentRun A.

Lemma pulled_yields (l : list VoiceAgentEvent) (tr : list Action) :
  pulled (map Yield l ++ tr) = pulled tr.
Proof. induction l as [|e l IH]; cbn; [reflexivity | exact IH]. Qed.

Lemma thread_ids_yields (l : list VoiceAgentEvent) (tr : list Action) :
  thread_ids (map Yield l ++ tr) = thread_ids tr.
Proof. induction l as [|e l IH]; cbn; [reflexivity | exact IH]. Qed.

Lemma body_no_stt (l : list VoiceAgentEvent) :
  Forall turn_body_event l -> filter is_stt_event l = [].
Proof.
  induction 1 as [|e l He _ IH]; [reflexivity|].
  cbn. destruct e; cbn in *; try contradiction; exact IH.
Qed.

(** The agent is always invoked under the thread id drawn when the stage
    starts, line 113: the turns of a session share one conversation. *)
Theorem one_thread_per_session (evs : list VoiceAgentEvent) (a : A) :
  Forall (eq (uuid4 0)) (thread_ids (_agent_stream uuid4 astream evs a)).
Proof.
  unfold _agent_stream. generalize 1 as n. generalize (uuid4 0) as tid.
  intros tid. revert a.
  induction evs as [|e rest IH]; intros a n; [constructor|].
  destruct (final_or_not e) as [[t ->]|He].
  - rewrite agent_loop_final. cbn -[stream_events].
    rewrite thread_ids_yields. constructor; [reflexivity|].
    destruct (failure (astream a tid t)); cbn; [constructor | apply IH].
  - rewrite agent_loop_pass by exact He. cbn. apply IH.
Qed.

Lemma loop_of_prefix tid pre post a n :
  (exists rest,
     agent_loop uuid4 astream tid (pre ++ post) a n =
     agent_loop uuid4 astream tid pre a n ++ rest) /\
  (raised (agent_loop uuid4 astream tid pre a n) = true ->
   agent_loop uuid4 astream tid (pre ++ post) a n =
   agent_loop uuid4 astream tid pre a n).
Proof.
  revert a n; induction pre as [|e pre IH]; intros a n.
  - split; [eexists; reflexivity | discriminate].
  - cbn [app]. destruct (final_or_not e) as [[t ->]|He].
    + rewrite !agent_loop_final. cbn -[stream_events].
      rewrite raised_yields.
      destruct (failure (astream a tid t)) as [d|].
      * split; [exists []; now rewrite app_nil_r | reflexivity].
      * destruct (IH (agent_after (astream a tid t))
                     (snd (stream_events uuid4
                             (streamed (astream a tid t)) n)))
          as [[rest Hrest] Hr].
        split.
        -- exists rest. rewrite Hrest. cbn -[stream_events].
           now rewrite <- !app_assoc.
        -- cbn. intros H. now rewrite (Hr H).
    + rewrite !agent_loop_pass by exact He. cbn.
      destruct (IH a n) as [[rest Hrest] Hr]. split.
      * exists rest. now rewrite Hrest.
      * intros H. now rewrite (Hr H).
Qed.

(** What the stage has done on a prefix of its input stands, whatever
    comes next: the trace on [pre ++ post] starts with the trace on [pre];
    and once an agent stream has raised, the rest of the input changes
    nothing. *)
Theorem trace_of_prefix (pre post : list VoiceAgentEvent) (a : A) :
  (exists rest,
     _agent_stream uuid4 astream (pre ++ post) a =
     _agent_stream uuid4 astream pre a ++ rest) /\
  (raised (_agent_stream uuid4 astream pre a) = true ->
   _agent_stream uuid4 astream (pre ++ post) a =
   _agent_stream uuid4 astream pre a).
Proof. apply loop_of_prefix. Qed.

Lemma passed_through_loop tid evs a n :
  (exists rest, evs = pulled (agent_loop uuid4 astream tid evs a n) ++ rest) /\
  (raised (agent_loop uuid4 astream tid evs a n) = false ->
   pulled (agent_loop uuid4 astream tid evs a n) = evs) /\
  (forallb is_stt_event evs = true ->
   filter is_stt_event (outputs (agent_loop uuid4 astream tid evs a n)) =
   pulled (agent_loop uuid4 astream tid evs a n)).
Proof.
  revert a n; induction evs as [|e rest IH]; intros a n.
  - repeat split. now exists [].
  - destruct (final_or_not e) as [[t ->]|He].
    + rewrite agent_loop_final. cbn -[stream_events].
      rewrite pulled_yields, raised_yields, outputs_yields, filter_app.
      rewrite (body_no_stt _ (stream_events_body uuid4 _ n)).
      destruct (failure (astream a tid t)) as [d|]; cbn -[stream_events].
      * repeat split; [now exists rest | discriminate].
      * destruct (IH (agent_after (astream a tid t))
                     (snd (stream_events uuid4
                             (streamed (astream a tid t)) n)))
          as ([r Hr] & Hp & Hf).
        repeat split.
        -- exists r. now rewrite <- Hr.
        -- intros H. now rewrite (Hp H).
        -- intros H. now rewrite (Hf H).
    + rewrite agent_loop_pass by exact He. cbn.
      destruct (IH a n) as ([r Hr] & Hp & Hf). repeat split.
      * exists r. now rewrite <- Hr.
      * intros H. now rewrite (Hp H).
      * intros H. apply andb_true_iff in H. destruct H as [H1 H2].
        rewrite H1. now rewrite (Hf H2).
Qed.

(** The stage takes its input in order and passes every event it takes
    on: the events taken are a prefix of the input, all of it when no
    agent stream raises; and on an input of recogniser events, the
    recogniser events of the output are exactly the events taken. *)
Theorem input_passed_through (evs : list VoiceAgentEvent) (a : A) :
  (exists rest, evs = pulled (_agent_stream uuid4 astream evs a) ++ rest) /\
  (raised (_agent_stream uuid4 astream evs a) = false ->
   pulled (_agent_stream uuid4 astream evs a) = evs) /\
  (forallb is_stt_event evs = true ->
   filter is_stt_event (outputs (_agent_stream uuid4 astream evs a)) =
   pulled (_agent_stream uuid4 astream evs a)).
Proof. apply passed_through_loop. Qed.

Lemma stream_events_app (ms1 ms2 : list Message) (n : nat) :
  stream_events uuid4 (ms1 ++ ms2) n =
  (fst (stream_events uuid4 ms1 n)
   ++ fst (stream_events uuid4 ms2 (snd (stream_events uuid4 ms1 n))),
   snd (stream_events uuid4 ms2 (snd (stream_events uuid4 ms1 n)))).
Proof.
  revert n; induction ms1 as [|m ms1 IH]; intros n.
  - cbn. now destruct (stream_events uuid4 ms2 n).
  - cbn. destruct (message_events uuid4 m n) as [evs n1]. rewrite IH.
    destruct (stream_events uuid4 ms1 n1) as [evs1 n2]. cbn.
    now rewrite app_assoc.
Qed.

Lemma session_tool_call_ids tid evs a n :
  tool_call_ids evs = [] ->
  tool_call_ids (outputs (agent_loop uuid4 astream tid evs a n)) =
  tool_call_ids
    (fst (stream_events uuid4 (streamed_in_session astream tid evs a) n)).
Proof.
  revert a n; induction evs as [|e rest IH]; intros a n Hev; [reflexivity|].
  destruct (final_or_not e) as [[t ->]|He].
  - rewrite agent_loop_final. cbn -[stream_events].
    rewrite outputs_yields, stream_events_app, !tool_call_ids_app.
    cbn [fst]. rewrite tool_call_ids_app. f_equal.
    destruct (failure (astream a tid t)) as [d|]; [reflexivity|].
    cbn -[stream_events]. apply IH. exact Hev.
  - rewrite agent_loop_pass by exact He. unfold is_stt_output in He.
    cbn [streamed_in_session]. rewrite He.
    assert (Hr : tool_call_ids rest = [] /\
                 tool_call_ids (e :: outputs
                   (agent_loop uuid4 astream tid rest a n)) =
                 tool_call_ids (outputs
                   (agent_loop uuid4 astream tid rest a n))).
    { destruct e; cbn in Hev |- *; try discriminate; split;
        solve [assumption | reflexivity]. }
    cbn [outputs]. destruct Hr as [Hr ->]. now apply IH.
Qed.

(** Over a whole session whose input carries no tool calls of its own, the
    tool calls that came without an id are given the draws 1, 2, ... of
    the id generator, in order and across the turns; so with a generator
    that never repeats itself their ids differ from one another and from
    the session's thread id, which is draw 0. *)
Theorem generated_ids_of_session (evs : list VoiceAgentEvent) (a : A) :
  tool_call_ids evs = [] ->
  let calls :=
    all_tool_calls (streamed_in_session astream (uuid4 0) evs a) in
  let ids := tool_call_ids (outputs (_agent_stream uuid4 astream evs a)) in
  fresh_ids calls ids =
    map uuid4 (seq 1 (List.length (filter lacks_id calls))) /\
  ((forall i j, uuid4 i = uuid4 j -> i = j) ->
   NoDup (uuid4 0 :: fresh_ids calls ids)).
Proof.
  intros Hev. cbv zeta. unfold _agent_stream.
  rewrite (session_tool_call_ids _ _ _ _ Hev).
  destruct (stream_events_ids uuid4
              (streamed_in_session astream (uuid4 0) evs a) 1)
    as (_ & Hfresh & _).
  cbv zeta in Hfresh. split; [exact Hfresh|].
  intros Hinj. rewrite Hfresh.
  change (uuid4 0 :: map uuid4 (seq 1 ?k)) with (map uuid4 (seq 0 (S k))).
  apply Injective_map_NoDup; [exact Hinj | apply seq_NoDup].
Qed.

End Stage.

Lemma trace_of_prefix_witness :
  raised (_agent_stream Examples.demo_uuid4 Examples.failing_agent
            Examples.utterance 0) = true /\
  _agent_stream Examples.demo_uuid4 Examples.failing_agent
    (Examples.utterance ++ Examples.two_utterances) 0 =
  _agent_stream Examples.demo_uuid4 Examples.failing_agent
    Examples.utterance 0.
Proof.
  split; [reflexivity|].
  apply (proj2 (trace_of_prefix Examples.demo_uuid4 nat
                  Examples.failing_agent Examples.utterance
                  Examples.two_utterances 0)).
  reflexivity.
Defined.

Lemma input_passed_through_witness :
  raised (_agent_stream Examples.demo_uuid4 Examples.order_agent
            Examples.two_utterances 0) = false /\
  forallb is_stt_event Examples.two_utterances = true /\
  filter is_stt_event
    (outputs (_agent_stream Examples.demo_uuid4 Examples.order_agent
                Examples.two_utterances 0)) = Examples.two_utterances.
Proof.
  split; [reflexivity|]. split; [reflexivity|].
  destruct (input_passed_through Examples.demo_uuid4 nat
              Examples.order_agent Examples.two_utterances 0)
    as (_ & Hp & Hf).
  rewrite (Hf eq_refl). exact (Hp eq_refl).
Defined.

Lemma generated_ids_of_session_witness :
  tool_call_ids Examples.two_utterances = [] /\
  NoDup
    (Examples.demo_uuid4 0
     :: fresh_ids
          (all_tool_calls
             (streamed_in_session Examples.idless_agent
                (Examples.demo_uuid4 0) Examples.two_utterances 0))
          (tool_call_ids
             (outputs (_agent_stream Examples.demo_uuid4
                         Examples.idless_agent
                         Examples.two_utterances 0)))).
Proof.
  split; [reflexivity|].
  apply (generated_ids_of_session Examples.demo_uuid4 nat
           Examples.idless_agent Examples.two_utterances 0 eq_refl).
  exact demo_uuid4_inj.
Defined.

End DialogMore.

(** ** More on the turn buffer *)

Module TtsMore.
Import Tts TtsFacts.

Lemma append_nil_r (s : string) : (s ++ "")%string = s.
Proof. induction s as [|c s IH]; cbn; [reflexivity | now rewrite IH]. Qed.

Lemma append_assoc (s1 s2 s3 : string) :
  ((s1 ++ s2) ++ s3)%string = (s1 ++ (s2 ++ s3))%string.
Proof. induction s1 as [|c s1 IH]; cbn; [reflexivity | now rewrite IH]. Qed.

Lemma join_cons (x : string) (l : list string) :
  String.concat "" (x :: l) = (x ++ String.concat "" l)%string.
Proof. destruct l; cbn; [now rewrite append_nil_r | reflexivity]. Qed.

Lemma join_app (l1 l2 : list string) :
  String.concat "" (l1 ++ l2) =
  (String.concat "" l1 ++ String.concat "" l2)%string.
Proof.
  induction l1 as [|x l1 IH]; [reflexivity|].
  cbn [app]. now rewrite !join_cons, IH, append_assoc.
Qed.

Lemma send_follows_end_any (evs : list VoiceAgentEvent) (b : list string)
  (p : bool) :
  send_follows_end p (fst (process_upstream evs b)) = true.
Proof.
  revert b p; induction evs as [|e rest IH]; intros b p; [reflexivity|].
  cbn [process_upstream]. destruct (step b e) as [acts b1] eqn:Hs.
  specialize (IH b1). destruct (process_upstream rest b1) as [acts' b2].
  cbn [fst] in *. unfold step in Hs.
  destruct e; cbn in Hs |- *; injection Hs as <- <-; cbn; apply IH.
Qed.

(** [send_text] is called only right after an end marker has been passed
    on: the client is handed the end of the turn before the speech for it
    is asked for. *)
Theorem end_marker_before_speech (evs : list VoiceAgentEvent)
  (buffer : list string) :
  send_follows_end false (fst (process_upstream evs buffer)) = true.
Proof. apply send_follows_end_any. Qed.

Lemma submitted_none (evs : list VoiceAgentEvent) (b : list string) :
  existsb is_agent_end evs = false ->
  submitted (fst (process_upstream evs b)) = [].
Proof.
  intros H. apply length_zero_iff_nil. rewrite submitted_count.
  induction evs as [|e rest IH]; [reflexivity|].
  cbn in H |- *. apply orb_false_iff in H. destruct H as [He Hr].
  rewrite He. now apply IH.
Qed.

(** A turn that is cut short is never spoken: events after which no end
    marker comes cause no call of [send_text]; their chunk texts stay in
    the buffer. *)
Theorem unfinished_turn_unspoken (pre tail : list VoiceAgentEvent)
  (buffer : list string) :
  existsb is_agent_end tail = false ->
  submitted (fst (process_upstream (pre ++ tail) buffer)) =
    submitted (fst (process_upstream pre buffer)) /\
  snd (process_upstream (pre ++ tail) buffer) =
    snd (process_upstream pre buffer) ++ chunk_texts tail.
Proof.
  intros H. rewrite process_upstream_app. cbn [fst snd].
  rewrite submitted_app, (submitted_none _ _ H), app_nil_r.
  split; [reflexivity|]. now rewrite buffer_invariant, H.
Qed.

(** Only chunks and end markers count: dropping every other event from the
    input changes neither the calls of [send_text] nor the buffer left. *)
Theorem other_events_ignored (evs : list VoiceAgentEvent)
  (buffer : list string) :
  submitted (fst (process_upstream (filter is_buffer_event evs) buffer)) =
    submitted (fst (process_upstream evs buffer)) /\
  snd (process_upstream (filter is_buffer_event evs) buffer) =
    snd (process_upstream evs buffer).
Proof.
  revert buffer; induction evs as [|e rest IH]; intros b; [split; reflexivity|].
  assert (Hstep : is_buffer_event e = false -> step b e = ([Yield e], b)).
  { unfold is_buffer_event, step. intros H.
    apply orb_false_iff in H. destruct H as [-> ->]. reflexivity. }
  cbn [filter]. destruct (is_buffer_event e) eqn:He.
  - cbn [process_upstream]. destruct (step b e) as [acts b1].
    destruct (IH b1) as [I1 I2].
    destruct (process_upstream (filter is_buffer_event rest) b1),
             (process_upstream rest b1).
    cbn [fst snd] in *. rewrite !submitted_app, I1, I2. split; reflexivity.
  - cbn [process_upstream]. rewrite (Hstep eq_refl).
    destruct (IH b) as [I1 I2].
    destruct (process_upstream (filter is_buffer_event rest) b),
             (process_upstream rest b).
    cbn [fst snd] in *. cbn. now rewrite I1, I2.
Qed.

(** No text is lost, doubled or moved: the texts handed to [send_text],
    followed by what is left in the buffer, spell what the buffer held at
    first followed by the texts of all chunks read. *)
Theorem text_conserved (evs : list VoiceAgentEvent) (buffer : list string) :
  (String.concat "" (submitted (fst (process_upstream evs buffer)))
   ++ String.concat "" (snd (process_upstream evs buffer)))%string =
  (String.concat "" buffer ++ String.concat "" (chunk_texts evs))%string.
Proof.
  revert buffer; induction evs as [|e rest IH]; intros b.
  - cbn. now rewrite append_nil_r.
  - cbn [process_upstream]. destruct (step b e) as [acts b1] eqn:Hs.
    specialize (IH b1). destruct (process_upstream rest b1) as [acts' b2].
    cbn [fst snd] in *. rewrite submitted_app. unfold step in Hs.
    destruct e; cbn in Hs; injection Hs as <- <-;
      unfold chunk_texts in *; cbn [filter is_agent_chunk type_ String.eqb
        Ascii.eqb Bool.eqb map text submitted app] in *;
      try exact IH.
    + rewrite IH, join_app, append_assoc, !join_cons. cbn [String.concat].
      now rewrite append_nil_r.
    + rewrite join_cons, append_assoc, IH. reflexivity.
Qed.

Lemma unfinished_turn_unspoken_witness :
  existsb is_agent_end [AgentChunkEvent "Anything"; AgentChunkEvent " else"]
  = false /\
  submitted
    (fst (process_upstream
            ([AgentChunkEvent "Sure"; AgentEndEvent]
             ++ [AgentChunkEvent "Anything"; AgentChunkEvent " else"]) []))
  = ["Sure"].
Proof.
  split; [reflexivity|].
  rewrite (proj1 (unfinished_turn_unspoken
                    [AgentChunkEvent "Sure"; AgentEndEvent]
                    [AgentChunkEvent "Anything"; AgentChunkEvent " else"]
                    [] eq_refl)).
  reflexivity.
Defined.

End TtsMore.

(** ** More on the recogniser's handle *)

Module SttMore.
Import Stt SttFacts.

Ltac cases_of_handle m :=
  destruct m as [[cl w ic sig] rcv]; cbn in *.

Lemma exec_method_well_formed (m : Machine) (x : Method) :
  well_formed (handle m) = true ->
  well_formed (handle (machine_of (exec_method m x))) = true.
Proof.
  unfold machine_of, well_formed. cases_of_handle m.
  destruct x as [[e|]|[d r|it|d]]; cbn; try reflexivity.
  - destruct cl, w, ic; cbn; intros H; try discriminate; reflexivity.
  - unfold send_audio. cbn.
    destruct ic, w, r; cbn; intros H; try discriminate; try exact H;
      destruct cl; try discriminate; reflexivity.
  - unfold receive_next, receive_body. cbn.
    destruct rcv, ic, w, cl, it as [res| |e]; cbn; intros H;
      try discriminate; try reflexivity;
      repeat match goal with
             | |- context [if ?b then _ else _] => destruct b; cbn
             end; reflexivity.
Qed.

(** Whatever is done with a handle, in whatever order, the connected flag
    is set only while the handle holds a socket, and a socket only while
    it holds a client: the second test of the guards of [send_audio] and
    [receive_events] never decides. *)
Theorem handle_stays_well_formed (m : Machine) (xs : list Method) :
  well_formed (handle m) = true ->
  well_formed (handle (machine_of (run_methods m xs))) = true.
Proof.
  unfold machine_of.
  revert m; induction xs as [|x xs IH]; intros m Hm; [exact Hm|].
  pose proof (exec_method_well_formed m x Hm) as H1. unfold machine_of in H1.
  cbn. destruct (exec_method m x) as [[evs ops] m1]. cbn in H1.
  specialize (IH m1 H1). destruct (run_methods m1 xs) as [[evs' ops'] m2].
  exact IH.
Qed.

Lemma handle_stays_well_formed_witness :
  well_formed init = true /\
  well_formed
    (handle
       (machine_of
          (run_methods {| handle := init; receiver := NotStarted |}
             [MConnect (Some "refused"); MConnect None;
              MCall (CallSendAudio [1] (Some "broken pipe"));
              MCall (CallClose false); MConnect None]))) = true.
Proof.
  split; [reflexivity|].
  apply (handle_stays_well_formed
           {| handle := init; receiver := NotStarted |}).
  reflexivity.
Defined.

Lemma closed_yields_nothing (xs : list Method) (m : Machine) :
  _close_signal (handle m) = true ->
  yielded (run_methods m xs) = [].
Proof.
  unfold yielded.
  revert m; induction xs as [|x xs IH]; intros m Hm; [reflexivity|].
  cbn.
  assert (H : fst (fst (exec_method m x)) = [] /\
              _close_signal (handle (snd (exec_method m x))) = true).
  { cases_of_handle m. subst sig.
    destruct x as [[e|]|[d r|it|d]]; cbn; try (split; reflexivity).
    - unfold send_audio. cbn.
      destruct (negb ic || negb (is_some w)), r; split; reflexivity.
    - unfold receive_next, receive_body. cbn.
      destruct rcv, (negb ic || negb (is_some w)), it as [res| |e];
        split; reflexivity. }
  destruct (exec_method m x) as [[evs ops] m1]. cbn in H.
  destruct H as [-> H1]. specialize (IH m1 H1).
  destruct (run_methods m1 xs) as [[evs' ops'] m2]. exact IH.
Qed.

(** After [close] the handle yields no event any more, whatever is done
    with it next: results that arrive later are dropped, and since nothing
    clears the close signal, not even connecting again brings the events
    back. *)
Theorem no_events_after_close (m : Machine) (d : bool) (xs : list Method) :
  yielded (run_methods m (MCall (CallClose d) :: xs)) = [].
Proof.
  pose proof (closed_yields_nothing xs
                {| handle := snd (close d (handle m));
                   receiver := receiver m |} eq_refl) as H.
  unfold yielded in *. cbn [run_methods exec_method exec].
  unfold close in *. cbn [fst snd] in *.
  destruct (run_methods _ xs) as [[evs ops] m2]. exact H.
Qed.

(** A handle closed and connected again sends, but does not receive. *)
Example reconnected_handle_is_deaf :
  run_methods {| handle := Examples.connected; receiver := NotStarted |}
    [MCall (CallClose false); MConnect None;
     MCall (CallSendAudio [1; 2] None);
     MCall (CallReceive (Next Examples.final_hello))] =
  ([],
   [WsSendDone; WsClose; ClientClose; Handshake; WsSend [1; 2]],
   {| handle := {| client := Some sdk_client; ws := Some socket;
                   is_connected := true; _close_signal := true |};
      receiver := Finished |}).
Proof. reflexivity. Qed.

Lemma guarded_sends_nothing (cs : list Call) (m : Machine) :
  negb (is_connected (handle m)) || negb (is_some (ws (handle m))) = true ->
  existsb is_ws_send (ops_of (run m cs)) = false.
Proof.
  unfold ops_of.
  revert m; induction cs as [|c cs IH]; intros m Hm; [reflexivity|].
  cbn.
  assert (H : existsb is_ws_send (snd (fst (exec m c))) = false /\
              negb (is_connected (handle (snd (exec m c))))
              || negb (is_some (ws (handle (snd (exec m c))))) = true).
  { cases_of_handle m.
    destruct c as [d r|it|d]; cbn.
    - unfold send_audio. cbn. rewrite Hm. split; [reflexivity | exact Hm].
    - unfold receive_next, receive_body. cbn. rewrite Hm.
      destruct rcv; [split; [reflexivity | exact Hm]| |
                     split; [reflexivity | exact Hm]].
      destruct it as [res| |e]; cbn;
        repeat match goal with
               | |- context [if ?b then _ else _] => destruct b; cbn
               end; split; try reflexivity; try exact Hm.
    - destruct w, cl, d; split; reflexivity. }
  destruct (exec m c) as [[evs ops] m1]. cbn in H. destruct H as [H0 H1].
  specialize (IH m1 H1). destruct (run m1 cs) as [[evs' ops'] m2].
  cbn in *. now rewrite existsb_app, H0, IH.
Qed.

(** Once a send has failed, no audio reaches the collaborator any more:
    whatever the two tasks do next, every later [send_audio] returns at
    its guard. *)
Theorem no_send_after_failure (m : Machine) (audio_data : list nat)
  (e : string) (cs : list Call) :
  existsb is_ws_send
    (ops_of (run (machine_of (exec m (CallSendAudio audio_data (Some e))))
                 cs)) = false.
Proof.
  apply guarded_sends_nothing. unfold machine_of. cases_of_handle m.
  unfold send_audio. cbn.
  destruct (negb ic || negb (is_some w)) eqn:Hg; cbn; [exact Hg | reflexivity].
Qed.

Lemma finished_receives (s : CartesiaSTT) (items : list Item) :
  run {| handle := s; receiver := Finished |} (map CallReceive items) =
  ([], [], {| handle := s; receiver := Finished |}).
Proof.
  induction items as [|x l IH]; [reflexivity|]. cbn. now rewrite IH.
Qed.

Lemma transcript_is_not_done (t : string) :
  (t =? "transcript") = true -> (t =? "done") = false.
Proof. intros H. apply String.eqb_eq in H. now subst. Qed.

Lemma reading_loop (s : CartesiaSTT) (items : list Item) (rcv : Receiver) :
  is_connected s = true -> is_some (ws s) = true ->
  _close_signal s = false -> rcv <> Finished ->
  yielded (run {| handle := s; receiver := rcv |} (map CallReceive items)) =
  flat_map result_events (before_end items).
Proof.
  intros Hc Hw Hs. unfold yielded.
  revert rcv; induction items as [|it items IH]; intros rcv Hr;
    [reflexivity|].
  assert (Hnext : receive_next rcv s it = receive_body s it).
  { destruct rcv; cbn; [now rewrite Hc, Hw | reflexivity | contradiction]. }
  cbn [map run exec handle receiver]. rewrite Hnext.
  destruct it as [res| |e]; cbn [receive_body before_end ends_stream].
  - rewrite Hs.
    destruct (from_option "" (r_type res) =? "transcript") eqn:Ht.
    + rewrite (transcript_is_not_done _ Ht).
      cbn [flat_map result_events]. rewrite Ht.
      assert (Hl : InLoop <> Finished) by discriminate.
      specialize (IH InLoop Hl).
      destruct (from_option false (r_is_final res));
        destruct (run _ (map CallReceive items)) as [[evs ops] m2];
        cbn in *; now rewrite IH.
    + destruct (from_option "" (r_type res) =? "done").
      * rewrite finished_receives. reflexivity.
      * cbn [flat_map result_events]. rewrite Ht.
        assert (Hl : InLoop <> Finished) by discriminate.
        specialize (IH InLoop Hl).
        destruct (run _ (map CallReceive items)) as [[evs ops] m2].
        cbn in *. exact IH.
  - rewrite finished_receives. reflexivity.
  - rewrite finished_receives. reflexivity.
Qed.

(** On a connected handle that was never closed, [receive_events] yields
    the transcripts of the recogniser in the order they arrive, final ones
    as [STTOutputEvent] and all others as [STTChunkEvent], skips results of
    any other type, and stops at the first ["done"], at the end of the
    socket's stream or at its first error: nothing that arrives later is
    yielded. *)
Theorem transcripts_until_done (s : CartesiaSTT) (items : list Item) :
  is_connected s = true -> is_some (ws s) = true ->
  _close_signal s = false ->
  yielded (receive_events s items) =
  flat_map result_events (before_end items).
Proof.
  intros Hc Hw Hs. unfold receive_events.
  apply reading_loop; try assumption. discriminate.
Qed.

Lemma transcripts_until_done_witness :
  is_connected Examples.connected = true /\
  yielded
    (receive_events Examples.connected
       [Next Examples.partial_hello;
        Next {| r_type := Some "flush_done"; r_text := None;
                r_is_final := None |};
        Next Examples.final_hello;
        Next {| r_type := Some "done"; r_text := None; r_is_final := None |};
        Next Examples.final_hello]) =
  [STTChunkEvent "he"; STTOutputEvent "hello"].
Proof.
  split; [reflexivity|].
  rewrite (transcripts_until_done Examples.connected _
             eq_refl eq_refl eq_refl).
  reflexivity.
Defined.

(** An error of the socket's stream in the reading loop stops the sending
    as well: it clears the connected flag, and whatever the two tasks do
    next, no audio reaches the collaborator any more. *)
Theorem no_send_after_receive_error (m : Machine) (e : string)
  (cs : list Call) :
  receiver m <> Finished ->
  existsb is_ws_send
    (ops_of (run (machine_of (exec m (CallReceive (Failed e)))) cs)) = false.
Proof.
  intros Hr. apply guarded_sends_nothing. unfold machine_of.
  cases_of_handle m. unfold receive_next. cbn.
  destruct rcv; [|reflexivity|contradiction].
  destruct (negb ic || negb (is_some w)) eqn:Hg; cbn;
    [exact Hg | reflexivity].
Qed.

Lemma no_send_after_receive_error_witness :
  ops_of
    (run {| handle := Examples.connected; receiver := InLoop |}
         [CallSendAudio [1; 2] None; CallReceive (Failed "reset by peer");
          CallSendAudio [3; 4] None; CallSendAudio [5; 6] None]) =
  [WsSend [1; 2]] /\
  existsb is_ws_send
    (ops_of
       (run (machine_of
               (exec {| handle := Examples.connected; receiver := InLoop |}
                     (CallReceive (Failed "reset by peer"))))
            [CallSendAudio [3; 4] None; CallSendAudio [5; 6] None])) = false.
Proof.
  split; [reflexivity|].
  apply (no_send_after_receive_error
           {| handle := Examples.connected; receiver := InLoop |}).
  discriminate.
Defined.

End SttMore.

(** ** The stages in a row *)

Module PipelineFacts.
Import Pipeline.

Lemma only_sends_without_close (cs : list Stt.Call) (m : Stt.Machine) :
  forallb Stt.not_close cs = true ->
  forallb Stt.is_ws_send (Stt.ops_of (Stt.run m cs)) = true.
Proof.
  unfold Stt.ops_of.
  revert m; induction cs as [|c cs IH]; intros m Hc; [reflexivity|].
  cbn in Hc. apply andb_true_iff in Hc. destruct Hc as [Hc Hcs].
  cbn. destruct c as [d r|it|d]; [| |discriminate]; cbn.
  - unfold Stt.send_audio.
    destruct (negb (Stt.is_connected (Stt.handle m))
              || negb (is_some (Stt.ws (Stt.handle m))));
      [|destruct r]; cbn;
      match goal with
      | |- context [Stt.run ?m' cs] =>
          specialize (IH m' Hcs); destruct (Stt.run m' cs) as [[evs ops] m2]
      end; exact IH.
  - destruct (Stt.receive_next (Stt.receiver m) (Stt.handle m) it)
      as [[evs rcv] s].
    match goal with
    | |- context [Stt.run ?m' cs] =>
        specialize (IH m' Hcs); destruct (Stt.run m' cs) as [[evs' ops] m2]
    end. exact IH.
Qed.


(** Whatever is done with the handle, the events it yields are transcripts
    of the recogniser, partial or final, and nothing else. *)
Theorem only_transcripts_yielded (m : Stt.Machine) (cs : list Stt.Call) :
  forallb is_stt_event (Stt.yielded (Stt.run m cs)) = true.
Proof.
  unfold Stt.yielded.
  revert m; induction cs as [|c cs IH]; intros m; [reflexivity|].
  cbn.
  assert (H : forallb is_stt_event (fst (fst (Stt.exec m c))) = true).
  { destruct c as [d r|it|d]; cbn.
    - now destruct (Stt.send_audio d r (Stt.handle m)) as [[o ops] s].
    - assert (Hb : forall s x,
                 forallb is_stt_event (fst (fst (Stt.receive_body s x)))
                 = true).
      { intros s [res| |e]; cbn; try reflexivity.
        destruct (Stt._close_signal s); [reflexivity|].
        destruct (from_option "" (Stt.r_type res) =? "transcript");
          [now destruct (from_option false (Stt.r_is_final res))|].
        now destruct (from_option "" (Stt.r_type res) =? "done"). }
      pose proof (Hb (Stt.handle m) it) as Hit.
      unfold Stt.receive_next.
      destruct (Stt.receiver m);
        [destruct (negb (Stt.is_connected (Stt.handle m))
                   || negb (is_some (Stt.ws (Stt.handle m))))| |];
        try reflexivity;
        destruct (Stt.receive_body (Stt.handle m) it) as [[evs rcv] s];
        exact Hit.
    - reflexivity. }
  destruct (Stt.exec m c) as [[evs ops] m1]. cbn in H.
  specialize (IH m1). destruct (Stt.run m1 cs) as [[evs' ops'] m2].
  cbn in *. now rewrite forallb_app, H, IH.
Qed.

Section Speech.

Variable uuid4 : nat -> string.
Variable A : Type.
Variable astream : A -> string -> string -> Dialog.AgentRun A.

Lemma chunk_texts_tool_calls (tcs : list Dialog.ToolCall) (n : nat) :
  chunk_texts (fst (Dialog.tool_call_events uuid4 tcs n)) = [].
Proof.
  revert n; induction tcs as [|tc tcs IH]; intros n; [reflexivity|].
  cbn. destruct (supplied (Dialog.tc_id tc)).
  - specialize (IH n).
    destruct (Dialog.tool_call_events uuid4 tcs n); exact IH.
  - specialize (IH (S n)).
    destruct (Dialog.tool_call_events uuid4 tcs (S n)); exact IH.
Qed.

Lemma chunk_texts_stream (ms : list Dialog.Message) (n : nat) :
  chunk_texts (fst (Dialog.stream_events uuid4 ms n)) = Dialog.ai_texts ms.
Proof.
  revert n; induction ms as [|m ms IH]; intros n; [reflexivity|].
  cbn. destruct m as [t l|tcid nm content|]; cbn.
  - pose proof (chunk_texts_tool_calls l n) as Hc.
    destruct (Dialog.tool_call_events uuid4 l n) as [evs n1]; cbn in Hc.
    specialize (IH n1).
    destruct (Dialog.stream_events uuid4 ms n1) as [evs' n2].
    cbn in *. unfold chunk_texts in *. cbn.
    rewrite filter_app, map_app, Hc, IH. reflexivity.
  - specialize (IH n).
    destruct (Dialog.stream_events uuid4 ms n) as [evs' n2]. exact IH.
  - specialize (IH n).
    destruct (Dialog.stream_events uuid4 ms n) as [evs' n2]. exact IH.
Qed.

Lemma body_has_no_end (l : list VoiceAgentEvent) :
  Forall turn_body_event l -> existsb is_agent_end l = false.
Proof.
  induction 1 as [|e l He _ IH]; [reflexivity|].
  cbn. destruct e; cbn in *; try contradiction; exact IH.
Qed.

Lemma speech_of_loop tid evs a n :
  existsb is_buffer_event evs = false ->
  Tts.submitted
    (fst (Tts.process_upstream
            (Dialog.outputs (Dialog.agent_loop uuid4 astream tid evs a n))
            [])) =
  map (fun ms => String.concat "" (Dialog.ai_texts ms))
      (Dialog.completed_streams astream tid evs a).
Proof.
  revert a n; induction evs as [|e rest IH]; intros a n Hev; [reflexivity|].
  cbn in Hev. apply orb_false_iff in Hev. destruct Hev as [He Hrest].
  destruct (DialogFacts.final_or_not e) as [[t ->]|Hn].
  - rewrite DialogFacts.agent_loop_final.
    cbn -[Dialog.stream_events Tts.process_upstream].
    rewrite DialogFacts.outputs_yields.
    set (ms := Dialog.streamed (astream a tid t)).
    pose proof (DialogFacts.stream_events_body uuid4 ms n) as Hbody.
    pose proof (chunk_texts_stream ms n) as Htexts.
    set (body := fst (Dialog.stream_events uuid4 ms n)) in *.
    change (Tts.process_upstream (STTOutputEvent t :: ?l) [])
      with (let '(acts', b2) := Tts.process_upstream l [] in
            ([Tts.Yield (STTOutputEvent t)] ++ acts', b2)).
    rewrite TtsFacts.process_upstream_app.
    cbn [fst snd app Tts.submitted].
    rewrite TtsFacts.submitted_app.
    rewrite (TtsMore.submitted_none _ _ (body_has_no_end _ Hbody)).
    rewrite TtsFacts.buffer_invariant, (body_has_no_end _ Hbody), Htexts.
    cbn [app].
    destruct (Dialog.failure (astream a tid t)) as [d|]; [reflexivity|].
    cbn -[Dialog.stream_events]. fold ms.
    specialize (IH (Dialog.agent_after (astream a tid t))
                   (snd (Dialog.stream_events uuid4 ms n)) Hrest).
    destruct (Tts.process_upstream _ []) as [acts' b2].
    cbn in *. now rewrite IH.
  - rewrite DialogFacts.agent_loop_pass by exact Hn.
    unfold is_stt_output in Hn. cbn [Dialog.completed_streams].
    rewrite Hn. cbn [Dialog.outputs Tts.process_upstream].
    assert (Hs : Tts.step [] e = ([Tts.Yield e], [])).
    { unfold is_buffer_event in He. apply orb_false_iff in He.
      unfold Tts.step. destruct He as [-> ->]. reflexivity. }
    rewrite Hs. specialize (IH a n Hrest).
    destruct (Tts.process_upstream _ []) as [acts' b2].
    cbn in *. exact IH.
Qed.

(** Dialog stage and turn buffer in a row: on an input without chunks and
    end markers of its own, [send_text] is called once for every turn that
    ran to its end, in order, with the texts of the turn's [AIMessage]s
    put together; tool calls, tool results and a turn whose stream raised
    add nothing. *)
Theorem speech_of_completed_turns (evs : list VoiceAgentEvent) (a : A) :
  existsb is_buffer_event evs = false ->
  Tts.submitted
    (fst (Tts.process_upstream
            (Dialog.outputs (Dialog._agent_stream uuid4 astream evs a)) [])) =
  map (fun ms => String.concat "" (Dialog.ai_texts ms))
      (Dialog.completed_streams astream (uuid4 0) evs a).
Proof. apply speech_of_loop. Qed.



End Speech.

Lemma speech_of_completed_turns_witness :
  existsb is_buffer_event Examples.two_utterances = false /\
  Tts.submitted
    (fst (Tts.process_upstream
            (Dialog.outputs
               (Dialog._agent_stream Examples.demo_uuid4
                  Examples.order_agent Examples.two_utterances 0)) [])) =
  ["Sure, Anything else?"; "Sure, Anything else?"].
Proof.
  split; [reflexivity|].
  rewrite (speech_of_completed_turns Examples.demo_uuid4 nat
             Examples.order_agent Examples.two_utterances 0 eq_refl).
  reflexivity.
Defined.

End PipelineFacts.

(** ** The audio-ingest stage, step by step *)

Module IngestFacts.
Import Stt Ingest.






Lemma do_call_yields c r :
  yields (do_call c r) = yields r ++ fst (fst (exec (machine r) c)).
Proof. unfold do_call. now destruct (exec (machine r) c) as [[evs ops] m]. Qed.


































(** The audio input ends and, while the task is inside [close], the
    reading loop meets the close signal and the stage's [finally] cancels
    the task: the [close] of line 96 is cut after its first await, the
    handle is not reset, and the [close] of line 107 tells the collaborator
    once more that the audio is over. *)
Example close_cut_by_cancellation :
  let r := _stt_stream Examples.ordinary Examples.live_handle
             [Audio [1; 2] None; AudioEnds;
              Answer (Next Examples.partial_hello)] in
  log r = [Did (CallSendAudio [1; 2] None);
           Did (CallReceive (Next Examples.partial_hello));
           CloseCut 0; Did (CallClose false)] /\
  sent r = [WsSend [1; 2]; WsSendDone; WsSendDone; WsClose; ClientClose] /\
  yields r = [].
Proof. repeat split. Qed.


End IngestFacts.

(** ** The dialog stage, turn by turn *)

Module DialogStage.
Import Dialog DialogFacts.

Section Stage.

Variable uuid4 : nat -> string.
Variable A : Type.
Variable astream : A -> string -> string -> AgentRun A.

Lemma turns_of_loop tid evs a n :
  turns evs (outputs (agent_loop uuid4 astream tid evs a n))
        (raised (agent_loop uuid4 astream tid evs a n)).
Proof.
  revert a n; induction evs as [|e rest IH]; intros a n; [constructor|].
  destruct (final_or_not e) as [[t ->]|He].
  - rewrite agent_loop_final. cbn -[stream_events].
    rewrite raised_yields, outputs_yields.
    destruct (failure (astream a tid t)) as [d|]; cbn -[stream_events].
    + rewrite app_nil_r. apply turns_cut, stream_events_body.
    + apply turns_done; [apply stream_events_body | apply IH].
  - rewrite agent_loop_pass by exact He. cbn.
    apply turns_pass; [exact He | apply IH].
Qed.

Lemma end_markers_of_loop tid evs a n :
  List.length
    (filter is_agent_end (outputs (agent_loop uuid4 astream tid evs a n))) =
  List.length
    (filter is_agent_end (pulled (agent_loop uuid4 astream tid evs a n)))
  + List.length (completed_streams astream tid evs a).
Proof.
  revert a n; induction evs as [|e rest IH]; intros a n; [reflexivity|].
  destruct (final_or_not e) as [[t ->]|He].
  - rewrite agent_loop_final. cbn -[stream_events].
    rewrite DialogMore.pulled_yields, outputs_yields, filter_app.
    rewrite (body_no_agent_end _ (stream_events_body uuid4 _ n)).
    destruct (failure (astream a tid t)) as [d|]; cbn -[stream_events];
      [reflexivity|].
    rewrite IH. lia.
  - rewrite agent_loop_pass by exact He. unfold is_stt_output in He.
    cbn. rewrite He. destruct (is_agent_end e); cbn; rewrite IH; lia.
Qed.

Lemma loop_app tid pre post a n :
  raised (agent_loop uuid4 astream tid pre a n) = false ->
  agent_loop uuid4 astream tid (pre ++ post) a n =
  agent_loop uuid4 astream tid pre a n
  ++ agent_loop uuid4 astream tid post
       (fst (state_after uuid4 astream tid pre a n))
       (snd (state_after uuid4 astream tid pre a n)).
Proof.
  revert a n; induction pre as [|e pre IH]; intros a n Hr; [reflexivity|].
  cbn [app]. destruct (final_or_not e) as [[t ->]|He].
  - rewrite !agent_loop_final in *. cbn -[stream_events] in Hr |- *.
    rewrite raised_yields in Hr.
    destruct (failure (astream a tid t)) as [d|]; [discriminate|].
    cbn in Hr. rewrite (IH _ _ Hr). cbn -[stream_events].
    now rewrite <- !app_assoc.
  - rewrite !agent_loop_pass in * by exact He. unfold is_stt_output in He.
    cbn in Hr |- *. rewrite He. now rewrite (IH _ _ Hr).
Qed.

(** C3, as the code has it.  In every run the output has the shape
    [turns]: each final transcript taken is passed on and followed by the
    chunk, tool-call and tool-result events of its turn, then by one end
    marker, except for a turn whose stream raises, after whose events the
    output ends without an end marker.  The stage adds as many end markers
    as there are turns that ran to their end.  And for any final
    transcript that starts a turn and whose agent stream completes,
    whatever comes later, the stage yields the events of that stream and
    then, once, the end marker, before it pulls its input again. *)
Theorem agent_end_per_completed_turn
  (evs pre post : list VoiceAgentEvent) (t : string) (a : A) :
  turns evs (outputs (_agent_stream uuid4 astream evs a))
        (raised (_agent_stream uuid4 astream evs a)) /\
  List.length
    (filter is_agent_end (outputs (_agent_stream uuid4 astream evs a))) =
  List.length
    (filter is_agent_end (pulled (_agent_stream uuid4 astream evs a)))
  + List.length (completed_streams astream (uuid4 0) evs a) /\
  (raised (_agent_stream uuid4 astream pre a) = false ->
   let a' := fst (state_after uuid4 astream (uuid4 0) pre a 1) in
   let n' := snd (state_after uuid4 astream (uuid4 0) pre a 1) in
   let r := astream a' (uuid4 0) t in
   failure r = None ->
   Forall turn_body_event (fst (stream_events uuid4 (streamed r) n')) /\
   _agent_stream uuid4 astream (pre ++ STTOutputEvent t :: post) a =
   _agent_stream uuid4 astream pre a
   ++ Pull (STTOutputEvent t) :: Yield (STTOutputEvent t)
      :: Invoke (uuid4 0) t
      :: map Yield (fst (stream_events uuid4 (streamed r) n'))
      ++ StreamDone :: Yield AgentEndEvent
         :: agent_loop uuid4 astream (uuid4 0) post (agent_after r)
              (snd (stream_events uuid4 (streamed r) n'))).
Proof.
  split; [apply turns_of_loop|]. split; [apply end_markers_of_loop|].
  intros Hr a' n' r Hf. split; [apply stream_events_body|].
  unfold _agent_stream in *. rewrite (loop_app _ _ _ _ _ Hr).
  fold a' n'. rewrite agent_loop_final. fold r. now rewrite Hf.
Qed.

Lemma emitted_yields (l : list VoiceAgentEvent) (tr : list Action) :
  emitted (map Yield l ++ tr) = l ++ emitted tr.
Proof. induction l as [|e l IH]; cbn; [reflexivity | now rewrite IH]. Qed.

Lemma body_kept (l : list VoiceAgentEvent) :
  Forall turn_body_event l -> filter not_agent_end l = l.
Proof.
  induction 1 as [|e l He _ IH]; [reflexivity|].
  cbn. destruct e; cbn in *; try contradiction; now rewrite IH.
Qed.

Lemma emitted_of_loop tid evs a n :
  filter not_agent_end (emitted (agent_loop uuid4 astream tid evs a n)) =
  fst (stream_events uuid4 (streamed_in_session astream tid evs a) n).
Proof.
  revert a n; induction evs as [|e rest IH]; intros a n; [reflexivity|].
  destruct (final_or_not e) as [[t ->]|He].
  - rewrite agent_loop_final. cbn -[stream_events].
    rewrite emitted_yields, filter_app, DialogMore.stream_events_app.
    rewrite (body_kept _ (stream_events_body uuid4 _ n)). cbn [fst].
    f_equal.
    destruct (failure (astream a tid t)) as [d|]; [reflexivity|].
    cbn -[stream_events]. apply IH.
  - rewrite agent_loop_pass by exact He. unfold is_stt_output in He.
    cbn [emitted streamed_in_session]. rewrite He. apply IH.
Qed.

Lemma chunk_texts_kept (l : list VoiceAgentEvent) :
  chunk_texts (filter not_agent_end l) = chunk_texts l.
Proof.
  unfold chunk_texts. induction l as [|e l IH]; [reflexivity|].
  destruct e; cbn; rewrite ?IH; reflexivity.
Qed.

Lemma ai_texts_app (ms1 ms2 : list Message) :
  ai_texts (ms1 ++ ms2) = ai_texts ms1 ++ ai_texts ms2.
Proof.
  induction ms1 as [|m ms1 IH]; [reflexivity|].
  destruct m; cbn; rewrite ?IH; reflexivity.
Qed.

Lemma chunk_texts_of_outputs tid evs a n :
  forallb is_stt_event evs = true ->
  chunk_texts (outputs (agent_loop uuid4 astream tid evs a n)) =
  ai_texts (streamed_in_session astream tid evs a).
Proof.
  revert a n; induction evs as [|e rest IH]; intros a n Hev; [reflexivity|].
  cbn in Hev. apply andb_true_iff in Hev. destruct Hev as [He Hrest].
  destruct (final_or_not e) as [[t ->]|Hn].
  - rewrite agent_loop_final. cbn -[stream_events].
    rewrite outputs_yields, ai_texts_app.
    unfold chunk_texts in *. cbn -[stream_events].
    rewrite filter_app, map_app.
    pose proof (PipelineFacts.chunk_texts_stream uuid4
                  (streamed (astream a tid t)) n) as Hc.
    unfold chunk_texts in Hc. rewrite Hc. f_equal.
    destruct (failure (astream a tid t)) as [d|]; [reflexivity|].
    cbn -[stream_events]. now apply IH.
  - rewrite agent_loop_pass by exact Hn. unfold is_stt_output in Hn.
    cbn [streamed_in_session outputs]. rewrite Hn.
    unfold chunk_texts in *. cbn [filter].
    replace (is_agent_chunk e) with false by (now destruct e).
    now apply IH.
Qed.

(** C10.  What the stage yields of its own, end markers aside, is what the
    messages streamed over the session give, in order: its chunk events
    are those of the [AIMessage]s, one each with the message's text,
    whatever the text; for each [AIMessage] streamed, the events of the
    messages before it are followed by one chunk with its text and then
    by its tool-call events, one per tool call.  On an input of recogniser
    events the same holds of the chunks of the whole output. *)
Theorem chunk_per_ai_message (evs : list VoiceAgentEvent) (a : A) :
  let tr := _agent_stream uuid4 astream evs a in
  let ms := streamed_in_session astream (uuid4 0) evs a in
  filter not_agent_end (emitted tr) = fst (stream_events uuid4 ms 1) /\
  chunk_texts (emitted tr) = ai_texts ms /\
  (forall ms1 txt tcs ms2,
     ms = ms1 ++ AIMessage txt tcs :: ms2 ->
     exists calls rest,
       filter not_agent_end (emitted tr) =
         fst (stream_events uuid4 ms1 1)
         ++ AgentChunkEvent txt :: calls ++ rest /\
       forallb is_tool_call calls = true /\
       List.length calls = List.length tcs /\
       chunk_texts rest = ai_texts ms2) /\
  (forallb is_stt_event evs = true -> chunk_texts (outputs tr) = ai_texts ms).
Proof.
  cbv zeta. unfold _agent_stream.
  pose proof (emitted_of_loop (uuid4 0) evs a 1) as He.
  split; [exact He|]. split; [|split].
  - rewrite <- chunk_texts_kept, He. apply PipelineFacts.chunk_texts_stream.
  - intros ms1 txt tcs ms2 Hms. rewrite He, Hms.
    rewrite DialogMore.stream_events_app. cbn [fst].
    set (n1 := snd (stream_events uuid4 ms1 1)).
    destruct (chunk_then_tool_calls uuid4 txt tcs ms2 n1)
      as ((Hm & Hc & Hl) & _).
    pose proof (PipelineFacts.chunk_texts_stream uuid4 ms2) as Hrest.
    cbn [stream_events]. cbn [message_events] in Hm |- *.
    destruct (tool_call_events uuid4 tcs n1) as [calls n2]. cbn in Hc, Hl.
    specialize (Hrest n2).
    destruct (stream_events uuid4 ms2 n2) as [rest n3]. cbn in Hrest.
    exists calls, rest. cbn. repeat split; assumption.
  - apply chunk_texts_of_outputs.
Qed.

Lemma tool_views_of_calls (tcs : list ToolCall) (n : nat) :
  tool_call_views (fst (tool_call_events uuid4 tcs n)) =
    map (fun tc => (from_option "unknown" (tc_name tc),
                    from_option [] (tc_args tc))) tcs /\
  tool_result_views (fst (tool_call_events uuid4 tcs n)) = [].
Proof.
  revert n; induction tcs as [|tc tcs IH]; intros n; [split; reflexivity|].
  cbn. destruct (supplied (tc_id tc)).
  - destruct (IH n) as [H1 H2].
    destruct (tool_call_events uuid4 tcs n); cbn in *.
    now rewrite H1, H2.
  - destruct (IH (S n)) as [H1 H2].
    destruct (tool_call_events uuid4 tcs (S n)); cbn in *.
    now rewrite H1, H2.
Qed.

Lemma tool_call_views_app (l1 l2 : list VoiceAgentEvent) :
  tool_call_views (l1 ++ l2) = tool_call_views l1 ++ tool_call_views l2.
Proof.
  induction l1 as [|e l1 IH]; [reflexivity|].
  destruct e; cbn; rewrite ?IH; reflexivity.
Qed.

Lemma tool_result_views_app (l1 l2 : list VoiceAgentEvent) :
  tool_result_views (l1 ++ l2) =
  tool_result_views l1 ++ tool_result_views l2.
Proof.
  induction l1 as [|e l1 IH]; [reflexivity|].
  destruct e; cbn; rewrite ?IH; reflexivity.
Qed.

Lemma tool_views_of_stream (ms : list Message) (n : nat) :
  tool_call_views (fst (stream_events uuid4 ms n)) =
    map (fun tc => (from_option "unknown" (tc_name tc),
                    from_option [] (tc_args tc)))
        (all_tool_calls ms) /\
  tool_result_views (fst (stream_events uuid4 ms n)) =
    map (fun x => (from_option "" (fst (fst x)), snd x)) (tool_messages ms).
Proof.
  unfold all_tool_calls.
  revert n; induction ms as [|m ms IH]; intros n; [split; reflexivity|].
  cbn. destruct m as [txt tcs|tcid nm content|]; cbn.
  - destruct (tool_views_of_calls tcs n) as [H1 H2].
    destruct (tool_call_events uuid4 tcs n) as [evs n1]; cbn in H1, H2.
    destruct (IH n1) as [I1 I2].
    destruct (stream_events uuid4 ms n1) as [evs' n2]; cbn in *.
    rewrite tool_call_views_app, tool_result_views_app, map_app.
    now rewrite H1, H2, I1, I2.
  - destruct (IH n) as [I1 I2].
    destruct (stream_events uuid4 ms n) as [evs' n2]; cbn in *.
    rewrite I1, I2. split; [reflexivity|]. f_equal.
    now destruct (content =? "") eqn:Hc; [apply String.eqb_eq in Hc; subst|].
  - destruct (IH n) as [I1 I2].
    destruct (stream_events uuid4 ms n) as [evs' n2]; cbn in *.
    now rewrite I1, I2.
Qed.

Lemma tool_views_kept (l : list VoiceAgentEvent) :
  tool_call_views (filter not_agent_end l) = tool_call_views l /\
  tool_result_views (filter not_agent_end l) = tool_result_views l.
Proof.
  induction l as [|e l [IH1 IH2]]; [split; reflexivity|].
  destruct e; cbn; rewrite ?IH1, ?IH2; split; reflexivity.
Qed.

(** Over a session, the tool-call events the stage yields are those of the
    tool calls of the streamed messages, one each and in order, named
    ["unknown"] and given no arguments where the call's dictionary has no
    such key; the tool-result events are those of the streamed tool
    messages, one each and in order, with the message's [tool_call_id] and
    its content as they are. *)
Theorem tool_events_mirror_session (evs : list VoiceAgentEvent) (a : A) :
  let tr := _agent_stream uuid4 astream evs a in
  let ms := streamed_in_session astream (uuid4 0) evs a in
  tool_call_views (emitted tr) =
    map (fun tc => (from_option "unknown" (tc_name tc),
                    from_option [] (tc_args tc)))
        (all_tool_calls ms) /\
  tool_result_views (emitted tr) =
    map (fun x => (from_option "" (fst (fst x)), snd x)) (tool_messages ms).
Proof.
  cbv zeta. unfold _agent_stream.
  destruct (tool_views_kept
              (emitted (agent_loop uuid4 astream (uuid4 0) evs a 1)))
    as [<- <-].
  rewrite emitted_of_loop. apply tool_views_of_stream.
Qed.

End Stage.

(** Two turns start, the second stream raises: one end marker, against
    C3. *)
Lemma final_without_agent_end :
  invoked (_agent_stream Examples.demo_uuid4 Examples.second_turn_fails
             Examples.two_utterances 0) =
  ["add a turkey sandwich"; "that is all"] /\
  outputs (_agent_stream Examples.demo_uuid4 Examples.second_turn_fails
             Examples.two_utterances 0) =
  [STTOutputEvent "add a turkey sandwich"; AgentChunkEvent "Sure, ";
   ToolCallEvent "t1" "add_to_order"
                 [("item", "turkey sandwich"); ("quantity", "1")];
   ToolResultEvent "t1" "add_to_order"
                   "Added 1 x turkey sandwich to the order.";
   AgentChunkEvent "Anything else?"; AgentEndEvent;
   STTChunkEvent "that"; STTOutputEvent "that is all";
   AgentChunkEvent "Su"] /\
  List.length
    (filter is_agent_end
       (outputs (_agent_stream Examples.demo_uuid4 Examples.second_turn_fails
                   Examples.two_utterances 0))) <> 2.
Proof. repeat split. cbn. discriminate. Qed.

Lemma agent_end_per_completed_turn_witness :
  raised (_agent_stream Examples.demo_uuid4 Examples.second_turn_fails [] 0)
  = false /\
  failure (Examples.second_turn_fails 0 (Examples.demo_uuid4 0)
             "add a turkey sandwich") = None /\
  _agent_stream Examples.demo_uuid4 Examples.second_turn_fails
    ([] ++ STTOutputEvent "add a turkey sandwich"
        :: [STTChunkEvent "that"; STTOutputEvent "that is all"]) 0 =
  [Pull (STTOutputEvent "add a turkey sandwich");
   Yield (STTOutputEvent "add a turkey sandwich");
   Invoke "uuid-" "add a turkey sandwich";
   Yield (AgentChunkEvent "Sure, ");
   Yield (ToolCallEvent "t1" "add_to_order"
            [("item", "turkey sandwich"); ("quantity", "1")]);
   Yield (ToolResultEvent "t1" "add_to_order"
            "Added 1 x turkey sandwich to the order.");
   Yield (AgentChunkEvent "Anything else?");
   StreamDone; Yield AgentEndEvent;
   Pull (STTChunkEvent "that"); Yield (STTChunkEvent "that");
   Pull (STTOutputEvent "that is all");
   Yield (STTOutputEvent "that is all");
   Invoke "uuid-" "that is all"; Yield (AgentChunkEvent "Su");
   Raise "rate limit exceeded"].
Proof.
  split; [reflexivity|]. split; [reflexivity|].
  destruct (agent_end_per_completed_turn Examples.demo_uuid4 nat
              Examples.second_turn_fails [] []
              [STTChunkEvent "that"; STTOutputEvent "that is all"]
              "add a turkey sandwich" 0) as (_ & _ & H).
  destruct (H eq_refl eq_refl) as [_ ->]. reflexivity.
Defined.

Lemma chunk_per_ai_message_witness :
  forallb is_stt_event Examples.two_utterances = true /\
  chunk_texts
    (outputs (_agent_stream Examples.demo_uuid4 Examples.idless_agent
                Examples.two_utterances 0)) = [""; ""] /\
  exists calls rest,
    filter not_agent_end
      (emitted (_agent_stream Examples.demo_uuid4 Examples.idless_agent
                  Examples.two_utterances 0)) =
    AgentChunkEvent "" :: calls ++ rest /\
    List.length calls = 1.
Proof.
  split; [reflexivity|].
  destruct (chunk_per_ai_message Examples.demo_uuid4 nat
              Examples.idless_agent Examples.two_utterances 0)
    as (_ & _ & Hm & Ho).
  split; [rewrite (Ho eq_refl); reflexivity|].
  destruct (Hm [] ""
              [{| tc_id := None; tc_name := Some "add_to_order";
                  tc_args := None |}]
              [ToolMessage (Some "call_1") (Some "add_to_order") "Added.";
               AIMessage ""
                 [{| tc_id := None; tc_name := Some "add_to_order";
                     tc_args := None |}];
               ToolMessage (Some "call_1") (Some "add_to_order") "Added."]
              eq_refl) as (calls & rest & He & _ & Hl & _).
  exists calls, rest. split; [exact He | exact Hl].
Defined.

End DialogStage.
